(** * LRU frame simulation of [main_logic.cpp]

    A shallow embedding of the loop of [main] (lines 23-61): the frame
    vector [ram], the recency list [check_usage] and the lookup table [map]
    from identifiers to list iterators, followed by the properties of the
    simulation.

    Modelling choices.
    - [int] values are [Z].  The program never computes with identifiers (it
      only copies and compares them), so no wrap-around arises.
    - [std::list<int>] is a list of nodes, front first.  Every node carries
      the handle that a [list<int>::iterator] to it holds; [splice] moves a
      node and keeps its handle, [push_front] allocates a node under a handle
      that no live node uses, [pop_back] frees the last node.
    - [std::unordered_map<int, list<int>::iterator>] is a [gmap Z iterator].
    - [std::vector<int> ram(3,-1)] is a [list Z] read with [!!] and written
      with [<[_:=_]>].
    - Undefined behaviour of the C++ program (dereferencing an iterator that
      denotes no node of the list, [back]/[pop_back] on an empty list, an index
      outside [ram]) is the [None] of the option monad.
    - [take_input] only fills the vector [inputs]; [main] is a function of
      that vector.  The unused local [ram_size] is left out. *)

From Stdlib Require Import Ascii String.
From stdpp Require Import gmap list pretty.

Local Open Scope Z_scope.

(** ** Data *)

(** The address of a list node, as held by an iterator. *)
Definition handle := nat.

(** A node of [std::list<int>]. *)
Record node := Node { node_at : handle; node_val : Z }.

(** [list<int>::iterator]: a node of the list, or the past-the-end value. *)
Inductive iterator := It (h : handle) | End.

Definition values (l : list node) : list Z := node_val <$> l.
Definition handles (l : list node) : list handle := node_at <$> l.

(** The locals of [main] that live across iterations (lines 23-25). *)
Record State := {
  ram : list Z;
  check_usage : list node;
  map : gmap Z iterator
}.

(** What one iteration reports: the line printed (the identifier, HIT or
    MISS, the three frames) and the final value of the local [victim], which
    only exists in the MISS branch. *)
Record Access := {
  a_id : Z;
  a_hit : bool;
  a_victim : option Z;
  a_ram : list Z
}.

(** ** The operations of [std::list] used by [main] *)

(** [check_usage.begin()]. *)
Definition list_begin (l : list node) : iterator :=
  match l with
  | n :: _ => It (node_at n)
  | [] => End
  end.

(** [check_usage.back()]. *)
Definition back (l : list node) : option Z := last (values l).

(** [check_usage.pop_back()]. *)
Definition pop_back (l : list node) : option (list node) :=
  match l with
  | [] => None
  | _ => Some (removelast l)
  end.

(** A handle used by no node of [l]. *)
Definition fresh_handle (l : list node) : handle :=
  S (foldr Nat.max 0%nat (handles l)).

(** [check_usage.push_front(x)]. *)
Definition push_front (x : Z) (l : list node) : list node :=
  Node (fresh_handle l) x :: l.

(** Detach the node that handle [h] denotes. *)
Fixpoint unlink (h : handle) (l : list node) : option (node * list node) :=
  match l with
  | [] => None
  | n :: l' =>
      if decide (node_at n = h) then Some (n, l')
      else '(m, r) ← unlink h l'; Some (m, n :: r)
  end.

(** [check_usage.splice(check_usage.begin(), check_usage, it)]: the node
    under [it] is relinked before the first node. *)
Definition splice_front (it : iterator) (l : list node) : option (list node) :=
  match it with
  | End => None
  | It h => '(n, r) ← unlink h l; Some (n :: r)
  end.

(** ** The body of [main] *)

(** Lines 36-40: the value of [victim], the list and the table after the
    conditional eviction. *)
Definition evict (l : list node) (m : gmap Z iterator)
  : option (Z * list node * gmap Z iterator) :=
  v ← back l;
  l' ← pop_back l;
  Some (v, l', delete v m).

Definition evict_if_full (l : list node) (m : gmap Z iterator)
  : option (Z * list node * gmap Z iterator) :=
  if decide (length l = 3%nat) then evict l m else Some (-1, l, m).

(** Lines 44-55: the scan [for(int j=0;j<3;j++)], started at [j] with [n]
    iterations left.  The result is the vector after the scan and the index
    at which the loop wrote and left through [break], if it did. *)
Fixpoint place_loop (n : nat) (j : nat) (r : list Z) (x victim : Z)
  : option (list Z * option nat) :=
  match n with
  | O => Some (r, None)
  | S n' =>
      c ← r !! j;
      if decide (c = -1) then Some (<[j := x]> r, Some j)
      else if decide (c = victim) then Some (<[j := x]> r, Some j)
      else place_loop n' (S j) r x victim
  end.

Definition place (r : list Z) (x victim : Z) : option (list Z * option nat) :=
  place_loop 3 0 r x victim.

(** Lines 29-60: one iteration of the outer loop for [x = inputs[i]]. *)
Definition loop_body (x : Z) (s : State) : option (State * Access) :=
  match map s !! x with
  | Some it =>
      l' ← splice_front it (check_usage s);
      Some ({| ram := ram s; check_usage := l'; map := map s |},
            {| a_id := x; a_hit := true; a_victim := None; a_ram := ram s |})
  | None =>
      '(victim, l1, m1) ← evict_if_full (check_usage s) (map s);
      let l2 := push_front x l1 in
      let m2 := <[x := list_begin l2]> m1 in
      '(r, _) ← place (ram s) x victim;
      Some ({| ram := r; check_usage := l2; map := m2 |},
            {| a_id := x; a_hit := false; a_victim := Some victim; a_ram := r |})
  end.

(** Lines 23-26. *)
Definition init : State :=
  {| ram := replicate 3 (-1); check_usage := []; map := ∅ |}.

(** Lines 28-61. *)
Fixpoint main_loop (inputs : list Z) (s : State) : option (State * list Access) :=
  match inputs with
  | [] => Some (s, [])
  | x :: rest =>
      '(s1, a) ← loop_body x s;
      '(s2, tr) ← main_loop rest s1;
      Some (s2, a :: tr)
  end.

Definition main (inputs : list Z) : option (State * list Access) :=
  main_loop inputs init.

(** The state between accesses, after the first accesses [inputs]. *)
Definition state_after (inputs : list Z) : option State := fst <$> main inputs.

(** The lines printed for [inputs]. *)
Definition trace (inputs : list Z) : option (list Access) := snd <$> main inputs.

(** ** Reading the accesses

    Standard input is a sequence of decimal integers of any size, separated
    by white space and followed by the end of the stream; it is modelled by
    the list of their values.  [int] has 32 bits.  A variable that may still
    be uninitialised is an [option Z]; using it uninitialised is undefined
    behaviour. *)

Definition INT_MAX : Z := 2147483647.
Definition INT_MIN : Z := -2147483648.

(** The values that an [int] represents. *)
Definition in_int (z : Z) : Prop := INT_MIN ≤ z ≤ INT_MAX.

(** The value stored by the extraction of an integer outside [int]. *)
Definition saturated (z : Z) : Z :=
  if decide (z < INT_MIN) then INT_MIN else INT_MAX.

(** The state of [cin]: the integers not read yet and the fail bit. *)
Record istream := { tokens : list Z; failbit : bool }.

(** [cin >> x].  On a stream that has failed nothing is extracted and [x]
    is left as it is.  At the end of the stream the extraction fails and
    leaves [x] as it is.  An integer in the range of [int] is stored in [x];
    one outside the range is consumed, the nearest bound is stored and the
    stream fails. *)
Definition cin_int (cin : istream) (x : option Z) : option Z * istream :=
  if failbit cin then (x, cin)
  else
    match tokens cin with
    | [] => (x, {| tokens := []; failbit := true |})
    | z :: rest =>
        if decide (z < INT_MIN)
        then (Some INT_MIN, {| tokens := rest; failbit := true |})
        else if decide (INT_MAX < z)
        then (Some INT_MAX, {| tokens := rest; failbit := true |})
        else (Some z, {| tokens := rest; failbit := false |})
    end.

(** Lines 14-17, with [count] iterations left: the vector and the stream
    after the loop. *)
Fixpoint read_loop (count : nat) (val : option Z) (cin : istream)
    (inputs : list Z) : option (list Z * istream) :=
  match count with
  | O => Some (inputs, cin)
  | S count' =>
      let '(val', cin') := cin_int cin val in
      v ← val';
      read_loop count' val' cin' (inputs ++ [v])
  end.

(** Lines 8-18, from a stream that has not failed: the vector and the
    integers left unread.  The loop [for(int i=0;i<n;i++)] runs [n] times, and
    not at all for [n ≤ 0]. *)
Definition take_input (stream inputs : list Z) : option (list Z * list Z) :=
  let '(n, cin) := cin_int {| tokens := stream; failbit := false |} None in
  n ← n;
  '(inputs', cin') ← read_loop (Z.to_nat n) None cin inputs;
  Some (inputs', tokens cin').

(** Lines 20-62 on a given standard input: the final state and the accesses
    reported. *)
Definition program (stream : list Z) : option (State * list Access) :=
  '(inputs, _) ← take_input stream [];
  main inputs.

(** ** Printing

    Standard output is the string of the characters written to [cout];
    [operator<<] writes an [int] in decimal, with a leading minus sign when
    negative. *)

(** [endl]. *)
Definition endl : string := String "010"%char "".

(** Lines 57-59: the scan [for(int j=0;j<3;j++)] over the frames, started at
    [j] with [n] iterations left. *)
Fixpoint print_frames (n j : nat) (r : list Z) : option string :=
  match n with
  | O => Some ""
  | S n' =>
      c ← r !! j;
      rest ← print_frames n' (S j) r;
      Some (pretty c +:+ " " +:+ rest)
  end.

(** Lines 29, 31 or 34, and 57-60: the line written for one access. *)
Definition print_access (a : Access) : option string :=
  frames ← print_frames 3 0 (a_ram a);
  Some ("Access " +:+ pretty (a_id a) +:+ ": "
        +:+ (if a_hit a then "HIT -> [" else "MISS -> [")
        +:+ frames +:+ "]" +:+ endl).

(** The lines written by the loop of [main]. *)
Fixpoint print_trace (tr : list Access) : option string :=
  match tr with
  | [] => Some ""
  | a :: tr' =>
      line ← print_access a;
      rest ← print_trace tr';
      Some (line +:+ rest)
  end.

(** Everything the program writes for a given standard input: the two
    prompts of [take_input] (lines 10 and 13), then the lines of the loop. *)
Definition stdout (stream : list Z) : option string :=
  '(_, tr) ← program stream;
  lines ← print_trace tr;
  Some ("Enter the number of process: " +:+ "Enter the Process" +:+ lines).

(** The character [c] occurs in the string [s]. *)
Fixpoint occurs (c : ascii) (s : string) : Prop :=
  match s with
  | EmptyString => False
  | String d s' => c = d ∨ occurs c s'
  end.

(** ** The access history

    Vocabulary for the statements that relate a state to the accesses that
    led to it. *)

(** [x] moved to the front of a list without repetition. *)
Definition move_to_front (x : Z) (l : list Z) : list Z :=
  x :: filter (λ y, y ≠ x) l.

(** The distinct identifiers of [inputs], the most recently accessed
    first. *)
Definition recency (inputs : list Z) : list Z :=
  foldl (λ acc x, move_to_front x acc) [] inputs.

(** The number of accesses reported as MISS. *)
Definition misses (tr : list Access) : nat :=
  length (filter (λ a, a_hit a = false) tr).

(** ** The transition of the specification

    The recency tracker, the frame table and the simulator step as the
    specification words them (sections 3, 4.1, 4.2 and 4.3), to be compared
    with [loop_body]. *)

Module Spec.

Inductive Error := EmptyTrackerError | VictimNotFoundError | NoEmptySlotError.

Inductive Classification := HIT | MISS.

(** The ordered sequence (front = most recently used) and the key set of
    the lookup mapping; the positions it maps to are opaque. *)
Record RecencyTracker := { order : list Z; lookup : gset Z }.

Record Simulator := { tracker : RecencyTracker; frames : list Z }.

Record TraceRecord := {
  requested : Z;
  classification : Classification;
  victim : option Z;
  snapshot : list Z
}.

Definition isResident (id : Z) (t : RecencyTracker) : bool :=
  bool_decide (id ∈ lookup t).

Definition size (t : RecencyTracker) : nat := length (order t).

Definition touch (id : Z) (t : RecencyTracker) : RecencyTracker :=
  if isResident id t
  then {| order := id :: filter (λ y, y ≠ id) (order t); lookup := lookup t |}
  else {| order := id :: order t; lookup := {[id]} ∪ lookup t |}.

Definition evictLRU (t : RecencyTracker) : Error + (Z * RecencyTracker) :=
  match last (order t) with
  | None => inl EmptyTrackerError
  | Some v =>
      inr (v, {| order := removelast (order t); lookup := lookup t ∖ {[v]} |})
  end.

(** The sentinel of an empty slot. *)
Definition empty_slot : Z := -1.

Definition placeFirstEmptyOrVictim (newId : Z) (victimId : option Z)
    (fr : list Z) : Error + (nat * list Z) :=
  match victimId with
  | Some v =>
      match list_find (λ c, c = v) fr with
      | Some (j, _) => inr (j, <[j := newId]> fr)
      | None => inl VictimNotFoundError
      end
  | None =>
      match list_find (λ c, c = empty_slot) fr with
      | Some (j, _) => inr (j, <[j := newId]> fr)
      | None => inl NoEmptySlotError
      end
  end.

Definition step (capacity : nat) (id : Z) (sim : Simulator)
  : Error + (Simulator * TraceRecord) :=
  if isResident id (tracker sim) then
    inr ({| tracker := touch id (tracker sim); frames := frames sim |},
         {| requested := id; classification := HIT; victim := None;
            snapshot := frames sim |})
  else
    match
      (if decide (size (tracker sim) = capacity)
       then match evictLRU (tracker sim) with
            | inl e => inl e
            | inr (v, t) => inr (Some v, t)
            end
       else inr (None, tracker sim))
    with
    | inl e => inl e
    | inr (vic, t1) =>
        let t2 := touch id t1 in
        match placeFirstEmptyOrVictim id vic (frames sim) with
        | inl e => inl e
        | inr (_, fr) =>
            inr ({| tracker := t2; frames := fr |},
                 {| requested := id; classification := MISS; victim := vic;
                    snapshot := fr |})
        end
    end.

End Spec.

(** The specification's view of a program state and of a reported access.
    The local [victim] holds -1 when nothing was evicted. *)
Definition abs_state (s : State) : Spec.Simulator :=
  {| Spec.tracker := {| Spec.order := values (check_usage s);
                        Spec.lookup := dom (map s) |};
     Spec.frames := ram s |}.

Definition abs_victim (v : option Z) : option Z :=
  match v with
  | Some z => if decide (z = -1) then None else Some z
  | None => None
  end.

Definition abs_access (a : Access) : Spec.TraceRecord :=
  {| Spec.requested := a_id a;
     Spec.classification := if a_hit a then Spec.HIT else Spec.MISS;
     Spec.victim := abs_victim (a_victim a);
     Spec.snapshot := a_ram a |}.

(** ** Frames and the scan

    Vocabulary for the statements about lines 44-55. *)

(** [i] is the first index of [r] whose content satisfies [P]. *)
Definition first_slot (r : list Z) (P : Z → Prop) (i : nat) : Prop :=
  (∃ c, r !! i = Some c ∧ P c)
  ∧ ∀ k c, (k < i)%nat → r !! k = Some c → ¬ P c.

(** The condition under which the scan writes: the slot is empty or holds
    the victim. *)
Definition takes (victim : Z) (c : Z) : Prop := c = -1 ∨ c = victim.

(** ** Invariants *)

(** The frames that hold an identifier. *)
Definition occupied (r : list Z) : list Z := filter (λ c, c ≠ -1) r.

(** The table [m] maps exactly the identifiers held in the list [l], each to
    the iterator of its node; no node and no identifier occurs twice. *)
Record tracks (l : list node) (m : gmap Z iterator) : Prop := {
  tr_handles : NoDup (handles l);
  tr_values : NoDup (values l);
  tr_map : ∀ x it, m !! x = Some it ↔ ∃ h, it = It h ∧ Node h x ∈ l
}.

(** Holds between accesses for every input vector. *)
Record wf (s : State) : Prop := {
  wf_ram : length (ram s) = 3%nat;
  wf_size : (length (check_usage s) ≤ 3)%nat;
  wf_tracks : tracks (check_usage s) (map s);
  wf_occupied : (length (occupied (ram s)) ≤ length (check_usage s))%nat
}.

(** Holds between accesses when no identifier read so far is -1: the
    resident identifiers fill the first frames, the other frames are empty. *)
Record mirrors (s : State) : Prop := {
  mir_sentinel : -1 ∉ values (check_usage s);
  mir_frames : ∃ p,
    ram s = p ++ replicate (3 - length p) (-1) ∧ p ≡ₚ values (check_usage s)
}.

(** ** The list operations *)

Lemma values_app (l1 l2 : list node) : values (l1 ++ l2) = values l1 ++ values l2.
Proof. apply fmap_app. Qed.

Lemma handles_app (l1 l2 : list node) :
  handles (l1 ++ l2) = handles l1 ++ handles l2.
Proof. apply fmap_app. Qed.

Lemma elem_values (l : list node) (n : node) : n ∈ l → node_val n ∈ values l.
Proof. intros H. unfold values. apply list_elem_of_fmap. eauto. Qed.

Lemma elem_handles (l : list node) (n : node) : n ∈ l → node_at n ∈ handles l.
Proof. intros H. unfold handles. apply list_elem_of_fmap. eauto. Qed.

Lemma values_elem (l : list node) (x : Z) :
  x ∈ values l → ∃ h, Node h x ∈ l.
Proof.
  unfold values. rewrite list_elem_of_fmap. intros [[h y] [-> Hn]]. eauto.
Qed.

Lemma handles_le_max (l : list node) (h : handle) :
  h ∈ handles l → (h ≤ foldr Nat.max 0 (handles l))%nat.
Proof.
  induction l as [|n l IH]; simpl.
  - intros H. by apply elem_of_nil in H.
  - rewrite elem_of_cons. intros [-> | H]; [lia|]. specialize (IH H). lia.
Qed.

Lemma fresh_handle_fresh (l : list node) : fresh_handle l ∉ handles l.
Proof.
  intros H. apply handles_le_max in H. unfold fresh_handle in H. lia.
Qed.

Lemma filter_ne_notin (x : Z) (l : list Z) :
  x ∉ l → filter (λ y, y ≠ x) l = l.
Proof.
  induction l as [|y l IH]; [done|].
  rewrite not_elem_of_cons. intros [Hne Hl].
  rewrite filter_cons_True; [|congruence]. by rewrite IH.
Qed.

(** Unlinking by handle detaches the node of the wanted identifier and keeps
    the order of the others. *)
Lemma unlink_node (l : list node) (h : handle) (x : Z) :
  NoDup (handles l) → NoDup (values l) → Node h x ∈ l →
  ∃ r, unlink h l = Some (Node h x, r)
       ∧ values r = filter (λ y, y ≠ x) (values l)
       ∧ Node h x :: r ≡ₚ l.
Proof.
  induction l as [|n l IH]; simpl.
  - intros _ _ H. by apply elem_of_nil in H.
  - rewrite !NoDup_cons, elem_of_cons. intros [Hh Hhs] [Hv Hvs] Hin.
    destruct (decide (node_at n = h)) as [Heq|Hne].
    + assert (n = Node h x) as ->.
      { destruct Hin as [<-|Hin]; [done|].
        apply elem_handles in Hin. simpl in Hin. by subst h. }
      exists l. simpl in *. split; [done|]. split; [|done].
      rewrite filter_cons_False by naive_solver.
      by rewrite filter_ne_notin.
    + destruct Hin as [<-|Hin]; [done|].
      destruct (IH Hhs Hvs Hin) as (r & -> & Hr & Hp). simpl.
      exists (n :: r). split; [done|]. split.
      * simpl. rewrite filter_cons_True; [by rewrite Hr|].
        intros Heq. apply Hv. rewrite Heq. by apply (elem_values _ (Node h x)).
      * rewrite Permutation_swap. by rewrite Hp.
Qed.

Lemma back_pop_back (l : list node) :
  l ≠ [] →
  ∃ n l', l = l' ++ [n] ∧ back l = Some (node_val n) ∧ pop_back l = Some l'.
Proof.
  intros Hne. destruct (exists_last Hne) as (l' & n & ->).
  exists n, l'. split; [done|]. split.
  - unfold back. rewrite values_app. simpl. apply last_snoc.
  - unfold pop_back. rewrite removelast_last. by destruct l'.
Qed.

(** ** The placement scan *)

Lemma first_slot_unique (r : list Z) (P : Z → Prop) (i j : nat) :
  first_slot r P i → first_slot r P j → i = j.
Proof.
  intros [(c & Hc & HP) Hlt] [(d & Hd & HQ) Hlt'].
  destruct (lt_eq_lt_dec i j) as [[H|H]|H]; [|done|].
  - exfalso. by apply (Hlt' i c).
  - exfalso. by apply (Hlt j d).
Qed.

Lemma place_loop_spec (n j : nat) (r : list Z) (x v : Z) :
  (j + n ≤ length r)%nat →
  ∃ o, place_loop n j r x v = Some (from_option (λ i, <[i := x]> r) r o, o)
       ∧ match o with
         | Some i =>
             (j ≤ i < j + n)%nat
             ∧ (∃ c, r !! i = Some c ∧ takes v c)
             ∧ ∀ k c, (j ≤ k < i)%nat → r !! k = Some c → ¬ takes v c
         | None =>
             ∀ k c, (j ≤ k < j + n)%nat → r !! k = Some c → ¬ takes v c
         end.
Proof.
  revert j. induction n as [|n IH]; intros j Hlen; simpl.
  - exists None. split; [done|]. intros k c Hk. lia.
  - destruct (lookup_lt_is_Some_2 r j) as [c Hc]; [lia|].
    rewrite Hc. simpl.
    destruct (decide (c = -1)) as [H1|H1];
      [|destruct (decide (c = v)) as [H2|H2]].
    + exists (Some j). split; [done|]. split; [lia|].
      split; [exists c; unfold takes; auto|]. intros k d Hk. lia.
    + exists (Some j). split; [done|]. split; [lia|].
      split; [exists c; unfold takes; auto|]. intros k d Hk. lia.
    + destruct (IH (S j)) as (o & -> & Ho); [lia|].
      exists o. split; [done|]. destruct o as [i|].
      * destruct Ho as (Hi & Hc' & Hbefore). split; [lia|]. split; [done|].
        intros k d Hk Hd. destruct (decide (k = j)) as [->|Hkj].
        -- rewrite Hc in Hd. injection Hd as <-. unfold takes. tauto.
        -- apply (Hbefore k d); [lia|done].
      * intros k d Hk Hd. destruct (decide (k = j)) as [->|Hkj].
        -- rewrite Hc in Hd. injection Hd as <-. unfold takes. tauto.
        -- apply (Ho k d); [lia|done].
Qed.

(** On a vector of three frames the scan writes the first frame that is
    empty or holds the victim, and nothing if there is none. *)
Lemma place_spec (r : list Z) (x v : Z) :
  length r = 3%nat →
  ∃ o, place r x v = Some (from_option (λ i, <[i := x]> r) r o, o)
       ∧ match o with
         | Some i => first_slot r (takes v) i
         | None => Forall (λ c, ¬ takes v c) r
         end.
Proof.
  intros Hlen. destruct (place_loop_spec 3 0 r x v) as (o & Hp & Ho); [lia|].
  exists o. split; [done|]. destruct o as [i|].
  - destruct Ho as (_ & Hc & Hbefore). split; [done|].
    intros k c Hk. apply Hbefore. lia.
  - apply Forall_lookup. intros k c Hc. apply (Ho k c); [|done].
    apply lookup_lt_Some in Hc. lia.
Qed.

Lemma place_first (r : list Z) (x v : Z) (i : nat) :
  length r = 3%nat → first_slot r (takes v) i →
  place r x v = Some (<[i := x]> r, Some i).
Proof.
  intros Hlen Hi. destruct (place_spec r x v Hlen) as (o & -> & Ho).
  destruct o as [j|].
  - by rewrite (first_slot_unique _ _ _ _ Ho Hi).
  - exfalso. destruct Hi as [(c & Hc & HP) _].
    rewrite Forall_lookup in Ho. by apply (Ho i c).
Qed.

(** Below capacity: the frames in use are a prefix without sentinel, and the
    scan fills the frame after it. *)
Lemma place_prefix (p : list Z) (k : nat) (x : Z) :
  length (p ++ replicate (S k) (-1)) = 3%nat → -1 ∉ p →
  first_slot (p ++ replicate (S k) (-1)) (takes (-1)) (length p)
  ∧ place (p ++ replicate (S k) (-1)) x (-1)
    = Some (p ++ x :: replicate k (-1), Some (length p)).
Proof.
  intros Hlen Hp.
  assert (first_slot (p ++ replicate (S k) (-1)) (takes (-1)) (length p)) as Hf.
  { split.
    - exists (-1). split; [|by left].
      rewrite lookup_app_r by lia. by rewrite Nat.sub_diag.
    - intros j c Hj Hc [->| ->]; rewrite lookup_app_l in Hc by done;
        apply list_elem_of_lookup_2 in Hc; done. }
  split; [done|]. rewrite (place_first _ _ _ _ Hlen Hf).
  rewrite insert_app_r_alt by lia. by rewrite Nat.sub_diag.
Qed.

(** At capacity: every frame holds an identifier, and the scan replaces the
    first frame that holds the victim. *)
Lemma place_victim (p : list Z) (x v : Z) :
  length p = 3%nat → -1 ∉ p → v ∈ p →
  ∃ p1 p2, p = p1 ++ v :: p2 ∧ (v ∉ p1)
           ∧ first_slot p (λ c, c = v) (length p1)
           ∧ place p x v = Some (p1 ++ x :: p2, Some (length p1)).
Proof.
  intros Hlen Hs Hv.
  destruct (list_elem_of_split_l _ _ Hv) as (p1 & p2 & -> & Hp1).
  exists p1, p2. split; [done|]. split; [done|].
  assert (∀ k c, (k < length p1)%nat → (p1 ++ v :: p2) !! k = Some c →
                 c ≠ -1 ∧ c ≠ v) as Hbefore.
  { intros k c Hk Hc. split; intros ->.
    - apply Hs. by apply list_elem_of_lookup_2 in Hc.
    - rewrite lookup_app_l in Hc by done.
      apply Hp1. by apply list_elem_of_lookup_2 in Hc. }
  assert ((p1 ++ v :: p2) !! length p1 = Some v) as Hat
    by (apply list_lookup_middle; reflexivity).
  split.
  - split; [by exists v|]. intros k c Hk Hc. apply Hbefore in Hc; tauto.
  - rewrite (place_first _ x v (length p1)); [|done|].
    + rewrite insert_app_r_alt by lia. by rewrite Nat.sub_diag.
    + split; [exists v; split; [done|by right]|].
      intros k c Hk Hc [->| ->]; apply Hbefore in Hc; tauto.
Qed.

Lemma occupied_insert (r : list Z) (i : nat) (x : Z) :
  (length (occupied (<[i := x]> r)) ≤ S (length (occupied r)))%nat.
Proof.
  unfold occupied. revert i. induction r as [|c r IH]; intros i; [simpl; lia|].
  destruct i as [|i]; simpl.
  - rewrite !filter_cons. repeat case_decide; simpl; lia.
  - specialize (IH i). rewrite !filter_cons. repeat case_decide; simpl; lia.
Qed.

(** ** The recency list and its table *)

Lemma tracks_resident (l : list node) (m : gmap Z iterator) (x : Z) :
  tracks l m → is_Some (m !! x) ↔ x ∈ values l.
Proof.
  intros [_ _ Hm]. split.
  - intros [it Hit]. apply Hm in Hit as (h & _ & Hn).
    by apply (elem_values _ (Node h x)).
  - intros Hx. apply values_elem in Hx as [h Hn].
    exists (It h). apply Hm. eauto.
Qed.

Lemma tracks_absent (l : list node) (m : gmap Z iterator) (x : Z) :
  tracks l m → m !! x = None ↔ x ∉ values l.
Proof.
  intros Ht. rewrite <- (tracks_resident l m x Ht).
  rewrite eq_None_not_Some. tauto.
Qed.

Lemma tracks_dom (l : list node) (m : gmap Z iterator) :
  tracks l m → dom m = list_to_set (values l).
Proof.
  intros Ht. apply set_eq. intros x.
  rewrite elem_of_dom, elem_of_list_to_set. by apply tracks_resident.
Qed.

(** Line 32 on a resident identifier: its node moves to the front, the
    other nodes keep their order, the table still denotes the nodes. *)
Lemma tracks_splice (l : list node) (m : gmap Z iterator) (x : Z) (it : iterator) :
  tracks l m → m !! x = Some it →
  ∃ l', splice_front it l = Some l'
        ∧ values l' = x :: filter (λ y, y ≠ x) (values l)
        ∧ l' ≡ₚ l
        ∧ tracks l' m.
Proof.
  intros [Hh Hv Hm] Hit. destruct (proj1 (Hm x it) Hit) as (h & -> & Hn).
  destruct (unlink_node l h x Hh Hv Hn) as (r & Hu & Hr & Hp).
  exists (Node h x :: r). simpl. rewrite Hu. simpl.
  split; [done|]. split; [by rewrite <- Hr|]. split; [done|].
  split.
  - unfold handles. by rewrite Hp.
  - unfold values. by rewrite Hp.
  - intros y it'. rewrite Hm. by setoid_rewrite Hp.
Qed.

(** Lines 37-39 on a non-empty list. *)
Lemma tracks_evict (l : list node) (m : gmap Z iterator) :
  tracks l m → l ≠ [] →
  ∃ n l', l = l' ++ [n]
          ∧ evict l m = Some (node_val n, l', delete (node_val n) m)
          ∧ (node_val n ∉ values l')
          ∧ tracks l' (delete (node_val n) m).
Proof.
  intros [Hh Hv Hm] Hne.
  destruct (back_pop_back l Hne) as (n & l' & -> & Hb & Hp).
  exists n, l'. split; [done|]. unfold evict. rewrite Hb, Hp. simpl.
  split; [done|].
  rewrite handles_app in Hh. rewrite values_app in Hv.
  apply NoDup_app in Hh as (Hh & _ & _).
  apply NoDup_app in Hv as (Hv & Hdisj & _).
  assert (node_val n ∉ values l') as Hfresh.
  { intros Hin. apply (Hdisj _ Hin). simpl. apply list_elem_of_here. }
  split; [done|]. split; [done..|].
  intros x it. rewrite lookup_delete_Some, Hm. split.
  - intros (Hx & h & -> & Hn). exists h. split; [done|].
    apply elem_of_app in Hn as [Hn|Hn]; [done|].
    apply list_elem_of_singleton in Hn. by subst n.
  - intros (h & -> & Hn). split.
    + intros <-. apply Hfresh. by apply (elem_values _ (Node h (node_val n))).
    + exists h. split; [done|]. apply elem_of_app. by left.
Qed.

(** Lines 41-42 on an identifier that the table does not hold. *)
Lemma tracks_push_front (l : list node) (m : gmap Z iterator) (x : Z) :
  tracks l m → m !! x = None →
  tracks (push_front x l) (<[x := list_begin (push_front x l)]> m).
Proof.
  intros Ht Hx. pose proof (proj1 (tracks_absent l m x Ht) Hx) as Hfresh.
  destruct Ht as [Hh Hv Hm]. unfold push_front. simpl. split; simpl.
  - apply NoDup_cons. split; [apply fresh_handle_fresh|done].
  - by apply NoDup_cons.
  - intros y it. rewrite lookup_insert_Some, Hm. split.
    + intros [[<- <-]|(Hne & h & -> & Hn)].
      * exists (fresh_handle l). split; [done|]. apply list_elem_of_here.
      * exists h. split; [done|]. by apply list_elem_of_further.
    + intros (h & -> & Hn). apply elem_of_cons in Hn as [Hn|Hn].
      * injection Hn as -> ->. by left.
      * right. split; [|by eauto].
        intros <-. apply Hfresh. by apply (elem_values _ (Node h x)).
Qed.

(** ** One access *)

(** The two outcomes of lines 36-40. *)
Lemma evict_if_full_cases (l : list node) (m : gmap Z iterator) :
  tracks l m →
  (length l = 3%nat
   ∧ ∃ n l', l = l' ++ [n]
             ∧ evict_if_full l m = Some (node_val n, l', delete (node_val n) m)
             ∧ (node_val n ∉ values l')
             ∧ tracks l' (delete (node_val n) m))
  ∨ (length l ≠ 3%nat ∧ evict_if_full l m = Some (-1, l, m)).
Proof.
  intros Ht. unfold evict_if_full.
  destruct (decide (length l = 3%nat)) as [H3|H3]; [left|by right].
  split; [done|]. apply tracks_evict; [done|]. by destruct l.
Qed.

Lemma loop_body_hit (s : State) (x : Z) (it : iterator) :
  wf s → map s !! x = Some it →
  ∃ l', loop_body x s
        = Some ({| ram := ram s; check_usage := l'; map := map s |},
                {| a_id := x; a_hit := true; a_victim := None; a_ram := ram s |})
        ∧ values l' = x :: filter (λ y, y ≠ x) (values (check_usage s))
        ∧ l' ≡ₚ check_usage s
        ∧ tracks l' (map s).
Proof.
  intros Hwf Hit.
  destruct (tracks_splice _ _ x it (wf_tracks s Hwf) Hit) as (l' & Hs & Hrest).
  exists l'. split; [|done]. unfold loop_body. rewrite Hit, Hs. done.
Qed.

Lemma loop_body_miss (s : State) (x : Z) :
  wf s → map s !! x = None →
  ∃ v l1 m1 o,
    evict_if_full (check_usage s) (map s) = Some (v, l1, m1)
    ∧ place (ram s) x v
      = Some (from_option (λ i, <[i := x]> (ram s)) (ram s) o, o)
    ∧ match o with
      | Some i => first_slot (ram s) (takes v) i
      | None => Forall (λ c, ¬ takes v c) (ram s)
      end
    ∧ loop_body x s
      = Some ({| ram := from_option (λ i, <[i := x]> (ram s)) (ram s) o;
                 check_usage := push_front x l1;
                 map := <[x := list_begin (push_front x l1)]> m1 |},
              {| a_id := x; a_hit := false; a_victim := Some v;
                 a_ram := from_option (λ i, <[i := x]> (ram s)) (ram s) o |}).
Proof.
  intros Hwf Hx.
  assert (∃ v l1 m1, evict_if_full (check_usage s) (map s) = Some (v, l1, m1))
    as (v & l1 & m1 & He).
  { destruct (evict_if_full_cases _ _ (wf_tracks s Hwf))
      as [(_ & n & l' & _ & He & _)|[_ He]]; eauto. }
  destruct (place_spec (ram s) x v (wf_ram s Hwf)) as (o & Hp & Ho).
  exists v, l1, m1, o. split; [done|]. split; [done|]. split; [done|].
  unfold loop_body. rewrite Hx, He. simpl. rewrite Hp. done.
Qed.

(** An access from a well-formed state is defined and ends in a well-formed
    state. *)
Lemma wf_step (s : State) (x : Z) :
  wf s → ∃ s' a, loop_body x s = Some (s', a) ∧ wf s'.
Proof.
  intros Hwf. destruct (map s !! x) as [it|] eqn:Hx.
  - destruct (loop_body_hit s x it Hwf Hx) as (l' & -> & _ & Hp & Ht).
    eexists _, _. split; [done|]. destruct Hwf as [Hr Hs _ Ho].
    split; simpl; [done| |done|]; by rewrite Hp.
  - destruct (loop_body_miss s x Hwf Hx) as (v & l1 & m1 & o & He & _ & Ho & ->).
    eexists _, _. split; [done|].
    pose proof (wf_ram s Hwf) as Hr. pose proof (wf_size s Hwf) as Hs.
    pose proof (wf_occupied s Hwf) as Hocc.
    assert (length (from_option (λ i, <[i := x]> (ram s)) (ram s) o) = 3%nat)
      as Hr'.
    { destruct o; simpl; [by rewrite length_insert|done]. }
    destruct (evict_if_full_cases _ _ (wf_tracks s Hwf))
      as [(H3 & n & l' & Hl & He' & Hfresh & Ht)|[H3 He']];
      rewrite He' in He; injection He as <- <- <-.
    + assert (length l' = 2%nat) as Hl'.
      { rewrite Hl, length_app in H3. simpl in H3. lia. }
      split; simpl.
      * done.
      * unfold push_front. simpl. lia.
      * apply tracks_push_front; [done|]. rewrite lookup_delete_None. by right.
      * unfold push_front. simpl. rewrite Hl'.
        rewrite <- Hr'. unfold occupied. apply length_filter.
    + split; simpl.
      * done.
      * unfold push_front. simpl. lia.
      * apply tracks_push_front; [apply (wf_tracks s Hwf)|done].
      * unfold push_front. simpl. destruct o as [i|]; simpl.
        -- pose proof (occupied_insert (ram s) i x). lia.
        -- lia.
Qed.

Lemma wf_init : wf init.
Proof.
  split; simpl; [done|lia| |lia].
  split; simpl; [apply NoDup_nil_2..|].
  intros x it. rewrite lookup_empty. split; [done|].
  intros (h & _ & Hn). by apply elem_of_nil in Hn.
Qed.

(** A MISS below capacity, when the frames mirror the list: nothing is
    evicted and the frame after the occupied prefix is written. *)
Lemma miss_below (s : State) (x : Z) :
  wf s → mirrors s → map s !! x = None → length (check_usage s) ≠ 3%nat →
  ∃ p k,
    ram s = p ++ replicate (S k) (-1)
    ∧ p ≡ₚ values (check_usage s)
    ∧ first_slot (ram s) (takes (-1)) (length p)
    ∧ place (ram s) x (-1) = Some (p ++ x :: replicate k (-1), Some (length p))
    ∧ loop_body x s
      = Some ({| ram := p ++ x :: replicate k (-1);
                 check_usage := push_front x (check_usage s);
                 map := <[x := list_begin (push_front x (check_usage s))]> (map s) |},
              {| a_id := x; a_hit := false; a_victim := Some (-1);
                 a_ram := p ++ x :: replicate k (-1) |}).
Proof.
  intros Hwf [Hs (p & Hram & Hp)] Hx H3.
  pose proof (wf_ram s Hwf) as Hr. pose proof (wf_size s Hwf) as Hsz.
  assert (length p = length (check_usage s)) as Hlen.
  { rewrite Hp. unfold values. by rewrite length_fmap. }
  assert (∃ k, (3 - length p)%nat = S k) as [k Hk].
  { exists (2 - length p)%nat. lia. }
  rewrite Hk in Hram. exists p, k.
  assert (-1 ∉ p) as Hp1 by by rewrite Hp.
  rewrite Hram in Hr. destruct (place_prefix p k x Hr Hp1) as [Hf Hpl].
  rewrite <- Hram in Hf, Hpl.
  split; [done|]. split; [done|]. split; [done|]. split; [done|].
  unfold loop_body, evict_if_full. rewrite Hx.
  rewrite decide_False by done. simpl. by rewrite Hpl.
Qed.

(** A MISS at capacity, when the frames mirror the list: the last node is
    evicted and the first frame that holds its identifier is written. *)
Lemma miss_full (s : State) (x : Z) :
  wf s → mirrors s → map s !! x = None → length (check_usage s) = 3%nat →
  ∃ n l' p1 p2,
    check_usage s = l' ++ [n]
    ∧ ram s = p1 ++ node_val n :: p2
    ∧ (node_val n ∉ p1)
    ∧ first_slot (ram s) (λ c, c = node_val n) (length p1)
    ∧ place (ram s) x (node_val n) = Some (p1 ++ x :: p2, Some (length p1))
    ∧ p1 ++ p2 ≡ₚ values l'
    ∧ loop_body x s
      = Some ({| ram := p1 ++ x :: p2;
                 check_usage := push_front x l';
                 map := <[x := list_begin (push_front x l')]>
                          (delete (node_val n) (map s)) |},
              {| a_id := x; a_hit := false; a_victim := Some (node_val n);
                 a_ram := p1 ++ x :: p2 |}).
Proof.
  intros Hwf [Hs (p & Hram & Hp)] Hx H3.
  pose proof (wf_ram s Hwf) as Hr.
  assert (length p = 3%nat) as Hlen.
  { rewrite Hp. unfold values. by rewrite length_fmap. }
  rewrite Hlen in Hram. simpl in Hram. rewrite app_nil_r in Hram. subst p.
  destruct (evict_if_full_cases _ _ (wf_tracks s Hwf))
    as [(_ & n & l' & Hl & He & Hfresh & Ht)|[? _]]; [|done].
  assert (-1 ∉ ram s) as Hno by by rewrite Hp.
  assert (node_val n ∈ ram s) as Hin.
  { rewrite Hp, Hl, values_app. apply elem_of_app. right. simpl.
    apply list_elem_of_here. }
  destruct (place_victim (ram s) x (node_val n) Hr Hno Hin)
    as (p1 & p2 & Hsplit & Hp1 & Hf & Hpl).
  exists n, l', p1, p2.
  split; [done|]. split; [done|]. split; [done|]. split; [done|].
  split; [done|]. split.
  - rewrite Hsplit, Hl, values_app in Hp. simpl in Hp.
    apply (Permutation_app_inv p1 p2 (values l') []) in Hp.
    by rewrite app_nil_r in Hp.
  - unfold loop_body. rewrite Hx, He. simpl. by rewrite Hpl.
Qed.

(** The frames keep mirroring the list over an access of an identifier
    other than -1. *)
Lemma mirrors_step (s s' : State) (x : Z) (a : Access) :
  wf s → mirrors s → x ≠ -1 → loop_body x s = Some (s', a) → mirrors s'.
Proof.
  intros Hwf Hm Hx1 Hstep. destruct (map s !! x) as [it|] eqn:Hx.
  - destruct (loop_body_hit s x it Hwf Hx) as (l' & Hb & _ & Hp & _).
    rewrite Hb in Hstep. injection Hstep as <- <-.
    destruct Hm as [Hs (p & Hram & Hperm)]. split; simpl.
    + unfold values. by rewrite Hp.
    + exists p. split; [done|]. unfold values. by rewrite Hp.
  - destruct (decide (length (check_usage s) = 3%nat)) as [H3|H3].
    + destruct (miss_full s x Hwf Hm Hx H3)
        as (n & l' & p1 & p2 & Hl & Hram & _ & _ & _ & Hp & Hb).
      rewrite Hb in Hstep. injection Hstep as <- <-.
      destruct Hm as [Hs _]. split; simpl.
      * apply not_elem_of_cons. split; [done|].
        intros Hin. apply Hs. rewrite Hl, values_app. apply elem_of_app. by left.
      * exists (p1 ++ x :: p2). split.
        -- pose proof (wf_ram s Hwf) as Hr. rewrite Hram in Hr.
           rewrite length_app in *. simpl in *.
           replace (3 - (length p1 + S (length p2)))%nat with 0%nat by lia.
           simpl. by rewrite app_nil_r.
        -- rewrite <- Permutation_middle. by rewrite Hp.
    + destruct (miss_below s x Hwf Hm Hx H3) as (p & k & Hram & Hp & _ & _ & Hb).
      rewrite Hb in Hstep. injection Hstep as <- <-.
      destruct Hm as [Hs _]. split; simpl.
      * apply not_elem_of_cons. by split.
      * exists (p ++ [x]). split.
        -- pose proof (wf_ram s Hwf) as Hr. rewrite Hram in Hr.
           rewrite length_app, length_replicate in Hr.
           rewrite length_app. simpl.
           replace (3 - (length p + 1))%nat with k by lia.
           by rewrite <- app_assoc.
        -- rewrite <- Permutation_cons_append. by rewrite Hp.
Qed.

Lemma mirrors_init : mirrors init.
Proof.
  split; simpl.
  - apply not_elem_of_nil.
  - by exists [].
Qed.

(** ** Runs of the loop *)

Lemma main_loop_app (xs ys : list Z) (s : State) :
  main_loop (xs ++ ys) s
  = '(s1, t1) ← main_loop xs s;
    '(s2, t2) ← main_loop ys s1;
    Some (s2, t1 ++ t2).
Proof.
  revert s. induction xs as [|x xs IH]; intros s; simpl.
  - destruct (main_loop ys s) as [[s2 t2]|]; done.
  - destruct (loop_body x s) as [[s1 a]|]; simpl; [|done].
    rewrite IH. destruct (main_loop xs s1) as [[s2 t1]|]; simpl; [|done].
    destruct (main_loop ys s2) as [[s3 t2]|]; done.
Qed.

Lemma state_after_nil : state_after [] = Some init.
Proof. reflexivity. Qed.

Lemma state_after_snoc (inputs : list Z) (x : Z) :
  state_after (inputs ++ [x])
  = s ← state_after inputs; fst <$> loop_body x s.
Proof.
  unfold state_after, main. rewrite main_loop_app. simpl.
  destruct (main_loop inputs init) as [[s t]|]; simpl; [|done].
  destruct (loop_body x s) as [[s' a]|]; done.
Qed.

Lemma state_after_step (inputs : list Z) (x : Z) (s s' : State) (a : Access) :
  state_after inputs = Some s → loop_body x s = Some (s', a) →
  state_after (inputs ++ [x]) = Some s'.
Proof. intros Hs Hb. rewrite state_after_snoc, Hs. simpl. by rewrite Hb. Qed.

(** Every run is defined, and the state between two accesses is well
    formed. *)
Lemma state_after_wf (inputs : list Z) :
  ∃ s, state_after inputs = Some s ∧ wf s.
Proof.
  induction inputs as [|x inputs (s & Hs & Hwf)] using rev_ind.
  - exists init. split; [done|apply wf_init].
  - destruct (wf_step s x Hwf) as (s' & a & Hb & Hwf').
    exists s'. split; [|done]. by apply (state_after_step _ _ s _ a).
Qed.

Lemma state_after_total (inputs : list Z) : is_Some (state_after inputs).
Proof. destruct (state_after_wf inputs) as (s & -> & _). eauto. Qed.

Lemma reached_wf (inputs : list Z) (s : State) :
  state_after inputs = Some s → wf s.
Proof.
  intros Hs. destruct (state_after_wf inputs) as (s0 & Hs0 & Hwf). congruence.
Qed.

(** While no access requests -1, the frames mirror the list. *)
Lemma reached_mirrors (inputs : list Z) (s : State) :
  Forall (λ x, x ≠ -1) inputs → state_after inputs = Some s → mirrors s.
Proof.
  revert s. induction inputs as [|x inputs IH] using rev_ind; intros s Hall Hs.
  - rewrite state_after_nil in Hs. injection Hs as <-. apply mirrors_init.
  - rewrite Forall_app, Forall_singleton in Hall. destruct Hall as [Hall Hx].
    rewrite state_after_snoc in Hs.
    destruct (state_after inputs) as [s0|] eqn:Hs0; [|done]. simpl in Hs.
    destruct (loop_body x s0) as [[s1 a]|] eqn:Hb; [|done].
    simpl in Hs. injection Hs as <-.
    apply (mirrors_step s0 s1 x a);
      [by apply (reached_wf inputs)|by apply IH|done..].
Qed.

(** ** The reference run *)

(** C2: with three frames and the accesses 1, 2, 3, 1, 4 the program reports
    MISS with frames 1 -1 -1, MISS with frames 1 2 -1, MISS with frames
    1 2 3, HIT with the frames unchanged, and MISS with victim 2 and frames
    1 4 3.  On a MISS without eviction the local [victim] holds -1. *)
Theorem trace_reference_run :
  trace [1; 2; 3; 1; 4]
  = Some [ {| a_id := 1; a_hit := false; a_victim := Some (-1); a_ram := [1; -1; -1] |};
           {| a_id := 2; a_hit := false; a_victim := Some (-1); a_ram := [1; 2; -1] |};
           {| a_id := 3; a_hit := false; a_victim := Some (-1); a_ram := [1; 2; 3] |};
           {| a_id := 1; a_hit := true; a_victim := None; a_ram := [1; 2; 3] |};
           {| a_id := 4; a_hit := false; a_victim := Some 2; a_ram := [1; 4; 3] |} ].
Proof. vm_compute. reflexivity. Qed.

(** ** A MISS while the frames mirror the list *)

Lemma first_slot_ext (r : list Z) (P Q : Z → Prop) (i : nat) :
  (∀ c, P c ↔ Q c) → first_slot r P i → first_slot r Q i.
Proof.
  intros HPQ [(c & Hc & HP) Hlt]. split.
  - exists c. split; [done|]. by apply HPQ.
  - intros k d Hk Hd HQ. apply (Hlt k d Hk Hd). by apply HPQ.
Qed.

Lemma first_slot_lt (r : list Z) (P : Z → Prop) (i : nat) :
  first_slot r P i → (i < length r)%nat.
Proof. intros [(c & Hc & _) _]. by apply lookup_lt_Some in Hc. Qed.

(** Both cases of a MISS at once: the scan writes frame [i], which is the
    first frame holding the evicted identifier at capacity, and the first
    empty frame, of index the resident count, below capacity. *)
Lemma miss_mirrored (s : State) (x : Z) :
  wf s → mirrors s → map s !! x = None →
  ∃ v l1 m1 i,
    evict_if_full (check_usage s) (map s) = Some (v, l1, m1)
    ∧ place (ram s) x v = Some (<[i := x]> (ram s), Some i)
    ∧ (i < 3)%nat
    ∧ loop_body x s
      = Some ({| ram := <[i := x]> (ram s);
                 check_usage := push_front x l1;
                 map := <[x := list_begin (push_front x l1)]> m1 |},
              {| a_id := x; a_hit := false; a_victim := Some v;
                 a_ram := <[i := x]> (ram s) |})
    ∧ ((length (check_usage s) = 3%nat
        ∧ (∃ n, check_usage s = l1 ++ [n] ∧ v = node_val n)
        ∧ m1 = delete v (map s)
        ∧ v ≠ -1
        ∧ first_slot (ram s) (λ c, c = v) i)
       ∨ ((length (check_usage s) < 3)%nat
          ∧ v = -1 ∧ l1 = check_usage s ∧ m1 = map s
          ∧ i = length (check_usage s)
          ∧ first_slot (ram s) (λ c, c = -1) i)).
Proof.
  intros Hwf Hm Hx. pose proof (wf_ram s Hwf) as Hr.
  pose proof (wf_size s Hwf) as Hsz.
  destruct (decide (length (check_usage s) = 3%nat)) as [H3|H3].
  - destruct (miss_full s x Hwf Hm Hx H3)
      as (n & l' & p1 & p2 & Hl & Hram & Hp1 & Hf & Hpl & Hp & Hb).
    pose proof (first_slot_lt _ _ _ Hf) as Hi.
    assert (<[length p1 := x]> (ram s) = p1 ++ x :: p2) as Hins.
    { rewrite Hram. rewrite insert_app_r_alt by lia. by rewrite Nat.sub_diag. }
    exists (node_val n), l', (delete (node_val n) (map s)), (length p1).
    rewrite Hins. split.
    { unfold evict_if_full. rewrite decide_True by done.
      unfold evict. destruct (back_pop_back (check_usage s)) as (n' & l'' & Hl' & -> & ->).
      - by destruct (check_usage s).
      - rewrite Hl in Hl'. apply app_inj_tail in Hl' as [<- <-]. done. }
    split; [done|]. split; [lia|]. split; [done|]. left.
    split; [done|]. split; [by exists n|]. split; [done|]. split; [|done].
    intros Hv. apply (mir_sentinel s Hm). rewrite Hl, values_app.
    apply elem_of_app. right. simpl. rewrite Hv. apply list_elem_of_here.
  - destruct (miss_below s x Hwf Hm Hx H3) as (p & k & Hram & Hp & Hf & Hpl & Hb).
    assert (length p = length (check_usage s)) as Hlen.
    { rewrite Hp. unfold values. by rewrite length_fmap. }
    pose proof (first_slot_lt _ _ _ Hf) as Hi.
    assert (<[length p := x]> (ram s) = p ++ x :: replicate k (-1)) as Hins.
    { rewrite Hram. rewrite insert_app_r_alt by lia. by rewrite Nat.sub_diag. }
    exists (-1), (check_usage s), (map s), (length p).
    rewrite Hins. split.
    { unfold evict_if_full. by rewrite decide_False. }
    split; [done|]. split; [lia|]. split; [done|]. right.
    split; [lia|]. split; [done|]. split; [done|]. split; [done|].
    split; [done|]. apply (first_slot_ext _ (takes (-1))); [|done].
    intros c. unfold takes. tauto.
Qed.

Lemma occupied_prefix (p : list Z) (k : nat) :
  -1 ∉ p → occupied (p ++ replicate k (-1)) = p.
Proof.
  intros Hp. unfold occupied. rewrite filter_app.
  assert (filter (λ c, c ≠ -1) (replicate k (-1)) = []) as ->.
  { induction k as [|k IH]; [done|]. simpl.
    rewrite filter_cons_False by (intros H; by apply H). done. }
  rewrite app_nil_r. clear k. induction p as [|c p IH]; [done|].
  apply not_elem_of_cons in Hp as [Hc Hp].
  rewrite filter_cons_True by congruence. by rewrite IH.
Qed.

(** ** The frames mirror the recency list *)

(** C3, as the claim states it, fails on the access sequence [-1]: the
    identifier -1 is resident, yet no frame is occupied. *)
Lemma frames_mirror_fails_on_sentinel :
  ∃ s, state_after [-1] = Some s
       ∧ values (check_usage s) = [-1]
       ∧ ram s = [-1; -1; -1]
       ∧ length (occupied (ram s)) ≠ length (check_usage s).
Proof. eexists. split; [reflexivity|]. by vm_compute. Qed.

(** C3 (amended): for every sequence of accesses of identifiers other than
    -1, at every point between accesses (after the first [k] accesses, for
    every [k]) the run is defined, the resident count is at most 3, the number
    of occupied frames equals the resident count, and the occupied frames
    hold, up to order, exactly the identifiers of the recency list, which
    holds no identifier twice and whose identifiers are the keys of the
    table. *)
Theorem frames_mirror_tracker (inputs : list Z) (k : nat) :
  Forall (λ x, x ≠ -1) inputs →
  ∃ s, state_after (take k inputs) = Some s
       ∧ (length (check_usage s) ≤ 3)%nat
       ∧ length (occupied (ram s)) = length (check_usage s)
       ∧ occupied (ram s) ≡ₚ values (check_usage s)
       ∧ NoDup (values (check_usage s))
       ∧ dom (map s) = list_to_set (values (check_usage s)).
Proof.
  intros Hall. destruct (state_after_wf (take k inputs)) as (s & Hs & Hwf).
  exists s. split; [done|].
  assert (mirrors s) as [Hno (p & Hram & Hp)].
  { apply (reached_mirrors (take k inputs)); [|done]. by apply Forall_take. }
  assert (occupied (ram s) = p) as Hocc.
  { rewrite Hram. apply occupied_prefix. by rewrite Hp. }
  split; [apply (wf_size s Hwf)|]. rewrite Hocc.
  split; [rewrite Hp; unfold values; by rewrite length_fmap|].
  split; [done|]. split; [apply (tr_values _ _ (wf_tracks s Hwf))|].
  apply tracks_dom, (wf_tracks s Hwf).
Qed.

Lemma frames_mirror_tracker_witness :
  Forall (λ x, x ≠ -1) [1; 2; 3; 1; 4]
  ∧ ∃ s, state_after (take 4 [1; 2; 3; 1; 4]) = Some s
         ∧ (length (check_usage s) ≤ 3)%nat
         ∧ length (occupied (ram s)) = length (check_usage s)
         ∧ occupied (ram s) ≡ₚ values (check_usage s)
         ∧ NoDup (values (check_usage s))
         ∧ dom (map s) = list_to_set (values (check_usage s)).
Proof.
  assert (Forall (λ x, x ≠ -1) [1; 2; 3; 1; 4]) as H
    by (repeat constructor; lia).
  split; [exact H|]. exact (frames_mirror_tracker [1; 2; 3; 1; 4] 4 H).
Defined.

Lemma nonneg_not_sentinel (inputs : list Z) :
  Forall (λ x, 0 ≤ x) inputs → Forall (λ x, x ≠ -1) inputs.
Proof.
  intros H. eapply Forall_impl; [exact H|]. intros x Hx. simpl in *. lia.
Qed.

(** C9: after any accesses of non-negative identifiers the run is defined
    and the occupied frames are a prefix of the table: the frames of index
    below the resident count hold an identifier, the later ones hold -1; and
    a MISS of a non-negative identifier below capacity writes the frame whose
    index is the resident count before the access. *)
Theorem occupied_frames_are_prefix (inputs : list Z) :
  Forall (λ x, 0 ≤ x) inputs →
  ∃ s, state_after inputs = Some s
       ∧ (∀ i, (i < length (check_usage s))%nat →
               ∃ c, ram s !! i = Some c ∧ c ≠ -1)
       ∧ (∀ i, (length (check_usage s) ≤ i < 3)%nat → ram s !! i = Some (-1))
       ∧ (∀ x, 0 ≤ x → map s !! x = None → (length (check_usage s) < 3)%nat →
               ∃ s' a, loop_body x s = Some (s', a)
                       ∧ a_hit a = false
                       ∧ place (ram s) x (-1)
                         = Some (ram s', Some (length (check_usage s)))
                       ∧ ram s' = <[length (check_usage s) := x]> (ram s)
                       ∧ ram s' !! length (check_usage s) = Some x).
Proof.
  intros Hall. destruct (state_after_wf inputs) as (s & Hs & Hwf).
  exists s. split; [done|].
  assert (mirrors s) as Hm.
  { apply (reached_mirrors inputs); [by apply nonneg_not_sentinel|done]. }
  pose proof (wf_ram s Hwf) as Hr.
  pose proof (mir_sentinel s Hm) as Hno.
  destruct (mir_frames s Hm) as (p & Hram & Hp).
  assert (length p = length (check_usage s)) as Hlen.
  { rewrite Hp. unfold values. by rewrite length_fmap. }
  split; [|split].
  - intros i Hi. rewrite Hram, lookup_app_l by lia.
    destruct (lookup_lt_is_Some_2 p i) as [c Hc]; [lia|].
    exists c. split; [done|]. intros ->. apply Hno. rewrite <- Hp.
    by apply list_elem_of_lookup_2 in Hc.
  - intros i Hi. rewrite Hram, lookup_app_r by lia.
    apply lookup_replicate_2. lia.
  - intros x Hx0 Hx Hlt.
    destruct (miss_mirrored s x Hwf Hm Hx)
      as (v & l1 & m1 & i & _ & Hpl & Hi & Hb & [(H3 & _)|(_ & -> & _ & _ & -> & _)]);
      [lia|].
    eexists _, _. split; [exact Hb|]. simpl. split; [done|]. split; [done|].
    split; [done|]. apply list_lookup_insert_eq. lia.
Qed.

Lemma occupied_frames_are_prefix_witness :
  Forall (λ x, 0 ≤ x) [5; 7]
  ∧ ∃ s, state_after [5; 7] = Some s
       ∧ (∀ i, (i < length (check_usage s))%nat →
               ∃ c, ram s !! i = Some c ∧ c ≠ -1)
       ∧ (∀ i, (length (check_usage s) ≤ i < 3)%nat → ram s !! i = Some (-1))
       ∧ (∀ x, 0 ≤ x → map s !! x = None → (length (check_usage s) < 3)%nat →
               ∃ s' a, loop_body x s = Some (s', a)
                       ∧ a_hit a = false
                       ∧ place (ram s) x (-1)
                         = Some (ram s', Some (length (check_usage s)))
                       ∧ ram s' = <[length (check_usage s) := x]> (ram s)
                       ∧ ram s' !! length (check_usage s) = Some x).
Proof.
  assert (Forall (λ x, 0 ≤ x) [5; 7]) as H by (repeat constructor; lia).
  split; [exact H|]. exact (occupied_frames_are_prefix [5; 7] H).
Defined.

(** C4: after any accesses of non-negative identifiers, an access of a
    non-negative identifier is defined (no operation of the run is applied
    outside its domain), and on a MISS: the conditional eviction is defined
    and, when the list is full, it is performed on a non-empty list; the scan
    leaves through [break] at a frame [i], which it writes; that frame is the
    first empty one when nothing was evicted and held the evicted identifier
    when something was. *)
Theorem consistency_errors_never_trigger (inputs : list Z) (x : Z) (s : State) :
  Forall (λ y, 0 ≤ y) inputs → 0 ≤ x → state_after inputs = Some s →
  ∃ s' a,
    loop_body x s = Some (s', a)
    ∧ (a_hit a = false →
       ∃ v l1 m1 i,
         evict_if_full (check_usage s) (map s) = Some (v, l1, m1)
         ∧ place (ram s) x v = Some (ram s', Some i)
         ∧ (i < 3)%nat
         ∧ ram s' = <[i := x]> (ram s)
         ∧ ram s' !! i = Some x
         ∧ (length (check_usage s) = 3%nat →
            check_usage s ≠ []
            ∧ evict (check_usage s) (map s) = Some (v, l1, m1)
            ∧ back (check_usage s) = Some v
            ∧ ram s !! i = Some v)
         ∧ (length (check_usage s) ≠ 3%nat →
            v = -1 ∧ first_slot (ram s) (λ c, c = -1) i)).
Proof.
  intros Hall Hx0 Hs. pose proof (reached_wf inputs s Hs) as Hwf.
  assert (mirrors s) as Hm.
  { apply (reached_mirrors inputs); [by apply nonneg_not_sentinel|done]. }
  pose proof (wf_ram s Hwf) as Hr.
  destruct (map s !! x) as [it|] eqn:Hx.
  - destruct (loop_body_hit s x it Hwf Hx) as (l' & Hb & _).
    eexists _, _. split; [exact Hb|]. simpl. done.
  - destruct (miss_mirrored s x Hwf Hm Hx)
      as (v & l1 & m1 & i & He & Hpl & Hi & Hb & Hcases).
    eexists _, _. split; [exact Hb|]. simpl. intros _.
    exists v, l1, m1, i. split; [done|]. split; [done|]. split; [done|].
    split; [done|]. split; [apply list_lookup_insert_eq; lia|].
    destruct Hcases as [(H3 & (n & Hl & Hv) & Hm1 & Hv1 & Hf)
                       |(Hlt & Hv & Hl & Hm1 & Hi' & Hf)].
    + split; [|intros H; by destruct H]. intros _.
      split; [by destruct (check_usage s)|].
      split; [unfold evict_if_full in He; by rewrite decide_True in He|].
      split.
      * unfold back. rewrite Hl, values_app, Hv. apply last_snoc.
      * destruct Hf as [(c & Hc & ->) _]. done.
    + split; [intros H; lia|]. intros _. done.
Qed.

Lemma consistency_errors_never_trigger_witness :
  Forall (λ y, 0 ≤ y) [1; 2; 3; 1] ∧ 0 ≤ 4
  ∧ ∃ s, state_after [1; 2; 3; 1] = Some s
    ∧ ∃ s' a,
        loop_body 4 s = Some (s', a)
        ∧ (a_hit a = false →
           ∃ v l1 m1 i,
             evict_if_full (check_usage s) (map s) = Some (v, l1, m1)
             ∧ place (ram s) 4 v = Some (ram s', Some i)
             ∧ (i < 3)%nat
             ∧ ram s' = <[i := 4]> (ram s)
             ∧ ram s' !! i = Some 4
             ∧ (length (check_usage s) = 3%nat →
                check_usage s ≠ []
                ∧ evict (check_usage s) (map s) = Some (v, l1, m1)
                ∧ back (check_usage s) = Some v
                ∧ ram s !! i = Some v)
             ∧ (length (check_usage s) ≠ 3%nat →
                v = -1 ∧ first_slot (ram s) (λ c, c = -1) i)).
Proof.
  assert (Forall (λ y, 0 ≤ y) [1; 2; 3; 1]) as H by (repeat constructor; lia).
  split; [exact H|]. split; [lia|].
  eexists. split; [reflexivity|].
  apply (consistency_errors_never_trigger [1; 2; 3; 1] 4); [exact H|lia|reflexivity].
Defined.

(** ** Placement *)

(** C5, as the claim states it, fails after the accesses 1, 2, 3, -1: the
    access of 4 is a MISS that evicts 2; the first frame holding 2 is frame 1,
    but the scan meets -1 in frame 0 first and writes 4 there. *)
Lemma placement_misses_victim_after_sentinel :
  ∃ s s' a,
    state_after [1; 2; 3; -1] = Some s
    ∧ loop_body 4 s = Some (s', a)
    ∧ a_hit a = false
    ∧ length (check_usage s) = 3%nat
    ∧ back (check_usage s) = Some 2
    ∧ a_victim a = Some 2
    ∧ ram s = [-1; 2; 3]
    ∧ first_slot (ram s) (λ c, c = 2) 1
    ∧ ram s' = [4; 2; 3]
    ∧ ram s' ≠ <[1%nat := 4]> (ram s).
Proof.
  eexists _, _, _. split; [reflexivity|]. split; [by vm_compute|].
  repeat (split; [by vm_compute|]). split; [|by vm_compute].
  split.
  - exists 2. by vm_compute.
  - intros k c Hk Hc. assert (k = 0%nat) as -> by lia.
    vm_compute in Hc. injection Hc as <-. done.
Qed.

(** C5 (amended): on every MISS that follows accesses of identifiers other
    than -1 only, the scan writes exactly one frame [i] and leaves the others
    as they are; when the list was full, [i] is the first frame, in index
    order, that holds the evicted identifier (the last of the list); when it
    was not, nothing is evicted and [i] is the first empty frame. *)
Theorem placement_left_to_right (inputs : list Z) (x : Z) (s : State) :
  Forall (λ y, y ≠ -1) inputs → state_after inputs = Some s →
  map s !! x = None →
  ∃ s' a v i,
    loop_body x s = Some (s', a)
    ∧ a_hit a = false
    ∧ a_victim a = Some v
    ∧ ram s' = <[i := x]> (ram s)
    ∧ ram s' !! i = Some x
    ∧ (∀ k, k ≠ i → ram s' !! k = ram s !! k)
    ∧ (length (check_usage s) = 3%nat →
       back (check_usage s) = Some v ∧ first_slot (ram s) (λ c, c = v) i)
    ∧ (length (check_usage s) ≠ 3%nat →
       v = -1 ∧ first_slot (ram s) (λ c, c = -1) i).
Proof.
  intros Hall Hs Hx. pose proof (reached_wf inputs s Hs) as Hwf.
  pose proof (reached_mirrors inputs s Hall Hs) as Hm.
  pose proof (wf_ram s Hwf) as Hr.
  destruct (miss_mirrored s x Hwf Hm Hx)
    as (v & l1 & m1 & i & He & Hpl & Hi & Hb & Hcases).
  eexists _, _, v, i. split; [exact Hb|]. simpl.
  split; [done|]. split; [done|]. split; [done|].
  split; [apply list_lookup_insert_eq; lia|].
  split; [intros k Hk; by apply list_lookup_insert_ne|].
  destruct Hcases as [(H3 & (n & Hl & Hv) & Hm1 & Hv1 & Hf)
                     |(Hlt & Hv & Hl & Hm1 & Hi' & Hf)].
  - split; [|intros H; by destruct H]. intros _. split; [|done].
    unfold back. rewrite Hl, values_app, Hv. apply last_snoc.
  - split; [intros H; lia|]. intros _. done.
Qed.

Lemma placement_left_to_right_witness :
  Forall (λ y, y ≠ -1) [1; 2; 3; 1]
  ∧ ∃ s, state_after [1; 2; 3; 1] = Some s
    ∧ map s !! 4 = None
    ∧ ∃ s' a v i,
        loop_body 4 s = Some (s', a)
        ∧ a_hit a = false
        ∧ a_victim a = Some v
        ∧ ram s' = <[i := 4]> (ram s)
        ∧ ram s' !! i = Some 4
        ∧ (∀ k, k ≠ i → ram s' !! k = ram s !! k)
        ∧ (length (check_usage s) = 3%nat →
           back (check_usage s) = Some v ∧ first_slot (ram s) (λ c, c = v) i)
        ∧ (length (check_usage s) ≠ 3%nat →
           v = -1 ∧ first_slot (ram s) (λ c, c = -1) i).
Proof.
  assert (Forall (λ y, y ≠ -1) [1; 2; 3; 1]) as H by (repeat constructor; lia).
  split; [exact H|]. eexists. split; [reflexivity|].
  assert (map (fst (default (init, []) (main [1; 2; 3; 1]))) !! 4 = None) as Hx
    by (vm_compute; reflexivity).
  split; [exact Hx|].
  apply (placement_left_to_right [1; 2; 3; 1] 4); [exact H|reflexivity|exact Hx].
Defined.

(** ** Eviction *)

Lemma miss_not_resident (s : State) (x : Z) :
  wf s → map s !! x = None → x ∉ values (check_usage s).
Proof. intros Hwf. apply tracks_absent, (wf_tracks s Hwf). Qed.



(** ** A HIT *)

Lemma filter_ne_split (l : list Z) (x : Z) :
  NoDup l → x ∈ l →
  ∃ l1 l2, l = l1 ++ x :: l2
           ∧ filter (λ y, y ≠ x) l = l1 ++ l2
           ∧ (x ∉ l1 ++ l2).
Proof.
  intros Hnd Hx. destruct (list_elem_of_split _ _ Hx) as (l1 & l2 & ->).
  apply NoDup_app in Hnd as (_ & Hdisj & Hnd2).
  apply NoDup_cons in Hnd2 as [Hx2 _].
  assert (x ∉ l1) as Hx1.
  { intros Hin. apply (Hdisj x Hin). apply list_elem_of_here. }
  exists l1, l2. split; [done|]. split.
  - rewrite filter_app, filter_cons_False by (intros H; by apply H).
    by rewrite !filter_ne_notin.
  - rewrite elem_of_app. tauto.
Qed.

(** C7: an access of a resident identifier is a HIT that moves the
    identifier from its place in the recency order to the front, keeps the
    order of the identifiers before and after that place, evicts nothing, and
    leaves the resident identifiers and the table as they are. *)
Theorem hit_promotes_to_front (inputs : list Z) (x : Z) (s : State) :
  state_after inputs = Some s → is_Some (map s !! x) →
  ∃ s' a l1 l2,
    loop_body x s = Some (s', a)
    ∧ a_hit a = true
    ∧ a_victim a = None
    ∧ values (check_usage s) = l1 ++ x :: l2
    ∧ values (check_usage s') = x :: l1 ++ l2
    ∧ (x ∉ l1 ++ l2)
    ∧ (∀ y, y ∈ values (check_usage s') ↔ y ∈ values (check_usage s))
    ∧ map s' = map s.
Proof.
  intros Hs [it Hx]. pose proof (reached_wf inputs s Hs) as Hwf.
  destruct (loop_body_hit s x it Hwf Hx) as (l' & Hb & Hv & Hp & _).
  assert (x ∈ values (check_usage s)) as Hin.
  { apply (tracks_resident _ (map s)); [apply (wf_tracks s Hwf)|eauto]. }
  destruct (filter_ne_split _ x (tr_values _ _ (wf_tracks s Hwf)) Hin)
    as (l1 & l2 & Hl & Hf & Hnot).
  eexists _, _, l1, l2. split; [exact Hb|]. simpl.
  split; [done|]. split; [done|]. split; [done|].
  split; [by rewrite Hv, Hf|]. split; [done|]. split; [|done].
  intros y. unfold values. by rewrite Hp.
Qed.

Lemma hit_promotes_to_front_witness :
  ∃ s, state_after [1; 2; 3] = Some s
    ∧ is_Some (map s !! 2)
    ∧ ∃ s' a l1 l2,
        loop_body 2 s = Some (s', a)
        ∧ a_hit a = true
        ∧ a_victim a = None
        ∧ values (check_usage s) = l1 ++ 2 :: l2
        ∧ values (check_usage s') = 2 :: l1 ++ l2
        ∧ (2 ∉ l1 ++ l2)
        ∧ (∀ y, y ∈ values (check_usage s') ↔ y ∈ values (check_usage s))
        ∧ map s' = map s.
Proof.
  eexists. split; [reflexivity|].
  assert (is_Some (map (fst (default (init, []) (main [1; 2; 3]))) !! 2)) as Hx
    by (vm_compute; eauto).
  split; [exact Hx|].
  apply (hit_promotes_to_front [1; 2; 3] 2); [reflexivity|exact Hx].
Defined.

Lemma resident_after_access (s s' : State) (x : Z) (a : Access) :
  wf s → loop_body x s = Some (s', a) → is_Some (map s' !! x).
Proof.
  intros Hwf Hb. destruct (map s !! x) as [it|] eqn:Hx.
  - destruct (loop_body_hit s x it Hwf Hx) as (l' & Hb' & _).
    rewrite Hb' in Hb. injection Hb as <- <-. simpl. eauto.
  - destruct (loop_body_miss s x Hwf Hx) as (v & l1 & m1 & o & _ & _ & _ & Hb').
    rewrite Hb' in Hb. injection Hb as <- <-. simpl.
    rewrite lookup_insert_eq. eauto.
Qed.

Lemma resident_hit (s : State) (x : Z) :
  wf s → is_Some (map s !! x) →
  ∃ s' a, loop_body x s = Some (s', a)
          ∧ a_hit a = true ∧ ram s' = ram s ∧ a_ram a = ram s.
Proof.
  intros Hwf [it Hx]. destruct (loop_body_hit s x it Hwf Hx) as (l' & Hb & _).
  eexists _, _. split; [exact Hb|]. done.
Qed.

Lemma access_again_hit (inputs : list Z) (x : Z) (s s1 : State) (a1 : Access) :
  state_after inputs = Some s → loop_body x s = Some (s1, a1) →
  ∃ s2 a2, loop_body x s1 = Some (s2, a2)
           ∧ a_hit a2 = true ∧ ram s2 = ram s1 ∧ a_ram a2 = ram s1.
Proof.
  intros Hs Hb. apply resident_hit.
  - apply (reached_wf (inputs ++ [x])). by apply (state_after_step _ _ s _ a1).
  - apply (resident_after_access s s1 x a1); [|done]. by apply (reached_wf inputs).
Qed.

(** C8: in every state of a run in which the identifier is resident, its
    access is reported as a HIT, with the frames as they were, and changes no
    frame; and after any access of an identifier, accessing it again at once
    is such a HIT. *)
Theorem hit_keeps_frames (inputs : list Z) (x : Z) (s : State) :
  state_after inputs = Some s →
  (is_Some (map s !! x) →
   ∃ s' a, loop_body x s = Some (s', a)
           ∧ a_hit a = true ∧ ram s' = ram s ∧ a_ram a = ram s)
  ∧ (∀ s1 a1, loop_body x s = Some (s1, a1) →
       ∃ s2 a2, loop_body x s1 = Some (s2, a2)
                ∧ a_hit a2 = true ∧ ram s2 = ram s1 ∧ a_ram a2 = ram s1).
Proof.
  intros Hs. split.
  - apply resident_hit. by apply (reached_wf inputs).
  - intros s1 a1 Hb. by apply (access_again_hit inputs x s s1 a1).
Qed.

Lemma hit_keeps_frames_witness :
  ∃ s, state_after [1; 2] = Some s
    ∧ (is_Some (map s !! 1) →
       ∃ s' a, loop_body 1 s = Some (s', a)
               ∧ a_hit a = true ∧ ram s' = ram s ∧ a_ram a = ram s)
    ∧ (∀ s1 a1, loop_body 1 s = Some (s1, a1) →
         ∃ s2 a2, loop_body 1 s1 = Some (s2, a2)
                  ∧ a_hit a2 = true ∧ ram s2 = ram s1 ∧ a_ram a2 = ram s1).
Proof.
  eexists. split; [reflexivity|].
  apply (hit_keeps_frames [1; 2] 1). reflexivity.
Defined.

(** ** The sentinel as an identifier *)

(** C10: when -1 is accessed while it is not resident and fewer than three
    identifiers are, the access is a MISS, -1 enters the recency list at the
    front and the table, the scan writes -1 into a frame that holds -1, so the
    frames and the reported frames are those of before the access; accessing
    -1 again at once is a HIT. *)
Theorem sentinel_access_leaves_no_trace (inputs : list Z) (s : State) :
  state_after inputs = Some s →
  map s !! (-1) = None → (length (check_usage s) < 3)%nat →
  ∃ s1 a1 i,
    loop_body (-1) s = Some (s1, a1)
    ∧ a_hit a1 = false
    ∧ values (check_usage s1) = -1 :: values (check_usage s)
    ∧ is_Some (map s1 !! (-1))
    ∧ place (ram s) (-1) (-1) = Some (ram s1, Some i)
    ∧ ram s !! i = Some (-1)
    ∧ ram s1 !! i = Some (-1)
    ∧ ram s1 = ram s
    ∧ a_ram a1 = ram s
    ∧ ∃ s2 a2, loop_body (-1) s1 = Some (s2, a2) ∧ a_hit a2 = true.
Proof.
  intros Hs Hx Hlt. pose proof (reached_wf inputs s Hs) as Hwf.
  pose proof (wf_ram s Hwf) as Hr. pose proof (wf_occupied s Hwf) as Hocc.
  destruct (loop_body_miss s (-1) Hwf Hx) as (v & l1 & m1 & o & He & Hpl & Ho & Hb).
  unfold evict_if_full in He. rewrite decide_False in He by lia.
  injection He as <- <- <-.
  destruct o as [i|]; simpl in *.
  - destruct Ho as [(c & Hc & Htake) _].
    assert (c = -1) as -> by (unfold takes in Htake; tauto).
    assert (<[i := -1]> (ram s) = ram s) as Hid by by apply list_insert_id.
    rewrite Hid in Hb, Hpl.
    eexists _, _, i. split; [exact Hb|]. simpl.
    split; [done|]. split; [done|]. split; [rewrite lookup_insert_eq; eauto|].
    split; [done|]. split; [done|]. split; [done|]. split; [done|].
    split; [done|].
    destruct (access_again_hit inputs (-1) s _ _ Hs Hb) as (s2 & a2 & Hb2 & Hh & _).
    eauto.
  - exfalso. assert (occupied (ram s) = ram s) as Hall.
    { unfold occupied. clear -Ho. induction Ho as [|c r Hc _ IH]; [done|].
      rewrite filter_cons_True; [by rewrite IH|].
      intros ->. apply Hc. by left. }
    rewrite Hall in Hocc. lia.
Qed.

Lemma sentinel_access_leaves_no_trace_witness :
  ∃ s, state_after [5] = Some s
    ∧ map s !! (-1) = None ∧ (length (check_usage s) < 3)%nat
    ∧ ∃ s1 a1 i,
        loop_body (-1) s = Some (s1, a1)
        ∧ a_hit a1 = false
        ∧ values (check_usage s1) = -1 :: values (check_usage s)
        ∧ is_Some (map s1 !! (-1))
        ∧ place (ram s) (-1) (-1) = Some (ram s1, Some i)
        ∧ ram s !! i = Some (-1)
        ∧ ram s1 !! i = Some (-1)
        ∧ ram s1 = ram s
        ∧ a_ram a1 = ram s
        ∧ ∃ s2 a2, loop_body (-1) s1 = Some (s2, a2) ∧ a_hit a2 = true.
Proof.
  eexists. split; [reflexivity|].
  assert (map (fst (default (init, []) (main [5]))) !! (-1) = None) as Hx
    by (vm_compute; reflexivity).
  assert (length (check_usage (fst (default (init, []) (main [5%Z])))) < 3)%nat
    as Hlt by (vm_compute; lia).
  split; [exact Hx|]. split; [exact Hlt|].
  apply (sentinel_access_leaves_no_trace [5]); [reflexivity|exact Hx|exact Hlt].
Defined.

(** ** The transition of the specification *)

Lemma first_slot_list_find (r : list Z) (v : Z) (i : nat) :
  first_slot r (λ c, c = v) i → list_find (λ c, c = v) r = Some (i, v).
Proof.
  intros [(c & Hc & ->) Hlt]. apply list_find_Some.
  split; [done|]. split; [done|]. intros j y Hy Hj. by apply (Hlt j y).
Qed.

(** C1, as the claim states it, fails after the accesses 1, 2, 3, -1, 4, 5:
    the access of 6 is a MISS that evicts -1, no frame holds -1, and 6 is not
    placed into the frame table; the transition of the specification ends in
    [VictimNotFoundError] there. *)
Lemma step_departs_after_sentinel :
  ∃ s s' a,
    state_after [1; 2; 3; -1; 4; 5] = Some s
    ∧ loop_body 6 s = Some (s', a)
    ∧ a_hit a = false
    ∧ ram s = [4; 2; 5]
    ∧ ram s' = [4; 2; 5]
    ∧ (6 ∉ ram s')
    ∧ Spec.step 3 6 (abs_state s) = inl Spec.VictimNotFoundError.
Proof.
  eexists _, _, _. split; [reflexivity|]. split; [by vm_compute|].
  repeat (split; [by vm_compute|]). split; [|by vm_compute].
  vm_compute. intros H. repeat (apply elem_of_cons in H as [H|H]; [done|]).
  by apply elem_of_nil in H.
Qed.

(** C1 (amended): after accesses of identifiers other than -1 only, every
    access is defined and is the transition of the specification with capacity
    3 on the tracker and frames that the state stands for: a resident
    identifier gives HIT, promotion to the front and no victim; any other
    gives MISS, eviction of the least recently used identifier exactly when
    three are resident, insertion at the front and placement in the frame
    table, without error. *)
Theorem step_follows_spec (inputs : list Z) (x : Z) (s : State) :
  Forall (λ y, y ≠ -1) inputs → state_after inputs = Some s →
  ∃ s' a,
    loop_body x s = Some (s', a)
    ∧ Spec.step 3 x (abs_state s) = inr (abs_state s', abs_access a)
    ∧ (a_hit a = true ↔ is_Some (map s !! x))
    ∧ head (values (check_usage s')) = Some x
    ∧ (a_hit a = false → x ∈ ram s').
Proof.
  intros Hall Hs. pose proof (reached_wf inputs s Hs) as Hwf.
  pose proof (reached_mirrors inputs s Hall Hs) as Hm.
  pose proof (wf_ram s Hwf) as Hr.
  destruct (map s !! x) as [it|] eqn:Hx.
  - destruct (loop_body_hit s x it Hwf Hx) as (l' & Hb & Hv & _).
    eexists _, _. split; [exact Hb|].
    split; [|simpl; split; [split; eauto|split; [by rewrite Hv|done]]].
    assert (Spec.isResident x
              {| Spec.order := values (check_usage s); Spec.lookup := dom (map s) |}
            = true) as Hres.
    { apply bool_decide_eq_true_2. simpl. apply elem_of_dom. eauto. }
    unfold Spec.step, Spec.touch. simpl. rewrite Hres.
    unfold abs_state, abs_access. simpl. by rewrite Hv.
  - assert (Spec.isResident x
              {| Spec.order := values (check_usage s); Spec.lookup := dom (map s) |}
            = false) as Hres.
    { apply bool_decide_eq_false_2. simpl. by apply not_elem_of_dom. }
    destruct (miss_mirrored s x Hwf Hm Hx)
      as (v & l1 & m1 & i & He & Hpl & Hi & Hb & Hcases).
    eexists _, _. split; [exact Hb|].
    split; [|simpl; split; [split; [done|by intros [? ?]]|split; [done|]];
             intros _; apply (list_elem_of_lookup_2 _ i);
             apply list_lookup_insert_eq; lia].
    assert (length (values (check_usage s)) = length (check_usage s)) as Hlen
      by apply length_fmap.
    unfold Spec.step. simpl. rewrite Hres. unfold Spec.size. simpl. rewrite Hlen.
    destruct Hcases as [(H3 & (n & Hl & Hv) & Hm1 & Hv1 & Hf)
                       |(Hlt & Hv & Hl & Hm1 & Hi' & Hf)].
    + rewrite decide_True by done.
      assert (values (check_usage s) = values l1 ++ [v]) as Hvals.
      { by rewrite Hl, values_app, Hv. }
      unfold Spec.evictLRU. simpl. rewrite Hvals, last_snoc, removelast_last.
      assert (Spec.isResident x
                {| Spec.order := values l1; Spec.lookup := dom (map s) ∖ {[v]} |}
              = false) as Hres'.
      { apply bool_decide_eq_false_2. simpl. rewrite elem_of_difference.
        intros [Hin _]. by apply not_elem_of_dom in Hx. }
      unfold Spec.touch. rewrite Hres'. simpl.
      rewrite (first_slot_list_find _ _ _ Hf).
      unfold abs_state, abs_access. simpl.
      rewrite decide_False by done.
      subst m1. by rewrite dom_insert_L, dom_delete_L.
    + rewrite decide_False by lia. simpl.
      unfold Spec.touch. rewrite Hres. simpl.
      unfold Spec.empty_slot. rewrite (first_slot_list_find _ _ _ Hf).
      unfold abs_state, abs_access. simpl. subst v l1 m1.
      rewrite decide_True by done. by rewrite dom_insert_L.
Qed.

Lemma step_follows_spec_witness :
  Forall (λ y, y ≠ -1) [1; 2; 3; 1]
  ∧ ∃ s, state_after [1; 2; 3; 1] = Some s
    ∧ ∃ s' a,
        loop_body 4 s = Some (s', a)
        ∧ Spec.step 3 4 (abs_state s) = inr (abs_state s', abs_access a)
        ∧ (a_hit a = true ↔ is_Some (map s !! 4))
        ∧ head (values (check_usage s')) = Some 4
        ∧ (a_hit a = false → 4 ∈ ram s').
Proof.
  assert (Forall (λ y, y ≠ -1) [1; 2; 3; 1]) as H by (repeat constructor; lia).
  split; [exact H|]. eexists. split; [reflexivity|].
  apply (step_follows_spec [1; 2; 3; 1] 4); [exact H|reflexivity].
Defined.

(** ** The state as a function of the access history *)

Lemma recency_snoc (inputs : list Z) (x : Z) :
  recency (inputs ++ [x]) = move_to_front x (recency inputs).
Proof. unfold recency. by rewrite foldl_snoc. Qed.

Lemma recency_elem (inputs : list Z) (y : Z) :
  y ∈ recency inputs ↔ y ∈ inputs.
Proof.
  induction inputs as [|x inputs IH] using rev_ind.
  - done.
  - rewrite recency_snoc. unfold move_to_front.
    rewrite elem_of_cons, list_elem_of_filter, IH, elem_of_app,
      list_elem_of_singleton.
    destruct (decide (y = x)); tauto.
Qed.

Lemma recency_NoDup (inputs : list Z) : NoDup (recency inputs).
Proof.
  induction inputs as [|x inputs IH] using rev_ind.
  - apply NoDup_nil_2.
  - rewrite recency_snoc. unfold move_to_front. apply NoDup_cons. split.
    + rewrite list_elem_of_filter. tauto.
    + by apply NoDup_filter.
Qed.

(** Cutting a list without repetition after [S k] entries before removing
    [x] loses none of the first [k] entries of the result. *)
Lemma take_filter_take (x : Z) (l : list Z) (k : nat) :
  NoDup l →
  take k (filter (λ y, y ≠ x) (take (S k) l)) = take k (filter (λ y, y ≠ x) l).
Proof.
  revert k. induction l as [|y l IH]; intros k Hnd; [done|].
  apply NoDup_cons in Hnd as [Hy Hnd].
  destruct k as [|k]; [by rewrite !take_0|].
  change (take (S (S k)) (y :: l)) with (y :: take (S k) l).
  destruct (decide (y = x)) as [->|Hne].
  - rewrite !filter_cons_False by (intros H; by apply H).
    rewrite (filter_ne_notin x l Hy).
    rewrite filter_ne_notin; [by rewrite take_take, Nat.min_id|].
    intros Hin. apply Hy. apply list_elem_of_lookup in Hin as [i Hi].
    apply lookup_take_Some in Hi as [Hi _]. by apply list_elem_of_lookup_2 in Hi.
  - rewrite !filter_cons_True by done. simpl. by rewrite IH.
Qed.

(** The recency list after an access is the old one with the identifier
    moved to the front, cut after three entries. *)
Lemma step_values (s s' : State) (x : Z) (a : Access) :
  wf s → loop_body x s = Some (s', a) →
  values (check_usage s') = take 3 (move_to_front x (values (check_usage s))).
Proof.
  intros Hwf Hb. pose proof (wf_size s Hwf) as Hsz.
  assert (length (values (check_usage s)) = length (check_usage s)) as Hlen
    by apply length_fmap.
  unfold move_to_front. destruct (map s !! x) as [it|] eqn:Hx.
  - destruct (loop_body_hit s x it Hwf Hx) as (l' & Hb' & Hv & Hp & _).
    rewrite Hb' in Hb. injection Hb as <- <-. simpl. rewrite Hv.
    f_equal. symmetry. apply take_ge.
    assert (x ∈ values (check_usage s)) as Hin.
    { apply (tracks_resident _ (map s)); [apply (wf_tracks s Hwf)|eauto]. }
    destruct (filter_ne_split _ x (tr_values _ _ (wf_tracks s Hwf)) Hin)
      as (l1 & l2 & Hl & -> & _).
    rewrite Hl, length_app in Hlen. simpl in Hlen. rewrite length_app. lia.
  - pose proof (miss_not_resident s x Hwf Hx) as Hfresh.
    rewrite (filter_ne_notin x _ Hfresh).
    destruct (loop_body_miss s x Hwf Hx) as (v & l1 & m1 & o & He & _ & _ & Hb').
    rewrite Hb' in Hb. injection Hb as <- <-. simpl.
    destruct (evict_if_full_cases _ _ (wf_tracks s Hwf))
      as [(H3 & n & l' & Hl & He' & _)|[H3 He']];
      rewrite He' in He; injection He as <- <- <-.
    + rewrite Hl, values_app. rewrite Hl, length_app in H3. simpl in H3.
      assert (length (values l') = 2%nat) as H2.
      { unfold values. rewrite length_fmap. lia. }
      rewrite take_app, H2. simpl. rewrite take_ge by lia. by rewrite app_nil_r.
    + rewrite take_ge; [done|]. lia.
Qed.

Lemma reached_values (inputs : list Z) (s : State) :
  state_after inputs = Some s →
  values (check_usage s) = take 3 (recency inputs).
Proof.
  revert s. induction inputs as [|x inputs IH] using rev_ind; intros s Hs.
  - rewrite state_after_nil in Hs. by injection Hs as <-.
  - rewrite state_after_snoc in Hs.
    destruct (state_after inputs) as [s0|] eqn:Hs0; [|done]. simpl in Hs.
    destruct (loop_body x s0) as [[s1 a]|] eqn:Hb; [|done].
    simpl in Hs. injection Hs as <-.
    rewrite (step_values s0 s1 x a (reached_wf inputs s0 Hs0) Hb).
    rewrite (IH s0 eq_refl), recency_snoc. unfold move_to_front.
    change (take 3 (?y :: ?l)) with (y :: take 2 l).
    f_equal. apply take_filter_take, recency_NoDup.
Qed.

Lemma reached_resident (inputs : list Z) (s : State) (x : Z) :
  state_after inputs = Some s →
  is_Some (map s !! x) ↔ x ∈ take 3 (recency inputs).
Proof.
  intros Hs. rewrite <- (reached_values inputs s Hs).
  apply tracks_resident, wf_tracks. by apply (reached_wf inputs).
Qed.

(** X1: after any accesses the run is defined and the recency list holds
    the three most recently accessed distinct identifiers (all of them when
    there are fewer), the most recent first. *)
Theorem resident_are_most_recent (inputs : list Z) :
  ∃ s, state_after inputs = Some s
       ∧ values (check_usage s) = take 3 (recency inputs)
       ∧ NoDup (recency inputs)
       ∧ ∀ y, y ∈ recency inputs ↔ y ∈ inputs.
Proof.
  destruct (state_after_wf inputs) as (s & Hs & _). exists s.
  split; [done|]. split; [by apply reached_values|].
  split; [apply recency_NoDup|apply recency_elem].
Qed.

Lemma loop_body_record (s s' : State) (x : Z) (a : Access) :
  loop_body x s = Some (s', a) →
  a_id a = x ∧ a_ram a = ram s' ∧ (a_hit a = true ↔ is_Some (map s !! x)).
Proof.
  unfold loop_body. intros Hb. destruct (map s !! x) as [it|] eqn:Hx.
  - destruct (splice_front it (check_usage s)) as [l'|]; [|done].
    injection Hb as <- <-. simpl. split; [done|]. split; [done|]. split; eauto.
  - destruct (evict_if_full (check_usage s) (map s)) as [[[v l1] m1]|]; [|done].
    simpl in Hb. destruct (place (ram s) x v) as [[r o]|]; [|done].
    injection Hb as <- <-. simpl. split; [done|]. split; [done|].
    split; [done|]. by intros [? ?].
Qed.

(** X2: whether an access is a HIT, and which identifier it evicts, is
    decided by the access history alone: the access is a HIT exactly when the
    identifier is among the three most recently accessed distinct identifiers,
    and on a MISS the local [victim] is the third most recent one, or -1 when
    fewer than three distinct identifiers were accessed. *)
Theorem hit_iff_recently_used (inputs : list Z) (x : Z) :
  ∃ s s' a,
    state_after inputs = Some s
    ∧ loop_body x s = Some (s', a)
    ∧ (a_hit a = true ↔ x ∈ take 3 (recency inputs))
    ∧ a_victim a
      = if a_hit a then None else Some (default (-1) (recency inputs !! 2%nat)).
Proof.
  destruct (state_after_wf inputs) as (s & Hs & Hwf).
  pose proof (reached_values inputs s Hs) as Hv.
  pose proof (reached_resident inputs s x Hs) as Hres.
  destruct (map s !! x) as [it|] eqn:Hx.
  - destruct (loop_body_hit s x it Hwf Hx) as (l' & Hb & _).
    eexists s, _, _. split; [done|]. split; [exact Hb|]. simpl.
    split; [|done]. split; [intros _; apply Hres; eauto|done].
  - destruct (loop_body_miss s x Hwf Hx) as (v & l1 & m1 & o & He & _ & _ & Hb).
    eexists s, _, _. split; [done|]. split; [exact Hb|]. simpl.
    split.
    { split; [done|]. intros Hin. apply Hres in Hin as [? ?]. done. }
    f_equal.
    destruct (evict_if_full_cases _ _ (wf_tracks s Hwf))
      as [(H3 & n & l' & Hl & He' & _)|[H3 He']];
      rewrite He' in He; injection He as <- <- <-.
    + rewrite Hl, length_app in H3. simpl in H3.
      assert (values (check_usage s) !! 2%nat = Some (node_val n)) as H2.
      { rewrite Hl, values_app. rewrite lookup_app_r;
          unfold values; rewrite length_fmap; [|lia].
        by replace (2 - length l')%nat with 0%nat by lia. }
      rewrite Hv in H2. apply lookup_take_Some in H2 as [H2 _]. by rewrite H2.
    + assert (length (take 3 (recency inputs)) ≠ 3%nat) as Hlen.
      { rewrite <- Hv. unfold values. by rewrite length_fmap. }
      rewrite length_take in Hlen.
      rewrite lookup_ge_None_2 by lia. done.
Qed.

(** X3: the first access of an identifier is always a MISS. *)
Theorem first_access_is_miss (inputs : list Z) (x : Z) :
  x ∉ inputs →
  ∃ s s' a, state_after inputs = Some s
            ∧ loop_body x s = Some (s', a)
            ∧ a_hit a = false.
Proof.
  intros Hnew. destruct (state_after_wf inputs) as (s & Hs & Hwf).
  destruct (wf_step s x Hwf) as (s' & a & Hb & _).
  exists s, s', a. split; [done|]. split; [done|].
  destruct (loop_body_record s s' x a Hb) as (_ & _ & Hhit).
  destruct (a_hit a); [|done]. exfalso. apply Hnew.
  apply recency_elem. destruct (proj1 Hhit eq_refl) as [it Hit].
  assert (x ∈ take 3 (recency inputs)) as Hin
    by (apply (reached_resident inputs s x Hs); eauto).
  apply list_elem_of_lookup in Hin as [i Hi].
  apply lookup_take_Some in Hi as [Hi _]. by apply list_elem_of_lookup_2 in Hi.
Qed.

Lemma first_access_is_miss_witness :
  (7 ∉ [1; 2; 1])
  ∧ ∃ s s' a, state_after [1; 2; 1] = Some s
              ∧ loop_body 7 s = Some (s', a)
              ∧ a_hit a = false.
Proof.
  assert (7 ∉ [1; 2; 1]) as H.
  { intros H. repeat (apply elem_of_cons in H as [H|H]; [done|]).
    by apply elem_of_nil in H. }
  split; [exact H|]. exact (first_access_is_miss [1; 2; 1] 7 H).
Defined.

(** ** The frames over a run *)

(** X4: an access changes at most one frame, and only a frame that holds
    -1 or the identifier just evicted: a frame holding any other identifier
    keeps it. *)
Theorem frame_kept_unless_empty_or_victim
    (inputs : list Z) (x : Z) (s s' : State) (a : Access) :
  state_after inputs = Some s → loop_body x s = Some (s', a) →
  (∀ i c, ram s !! i = Some c → c ≠ -1 → a_victim a ≠ Some c →
          ram s' !! i = Some c)
  ∧ (∀ i j, ram s' !! i ≠ ram s !! i → ram s' !! j ≠ ram s !! j → i = j).
Proof.
  intros Hs Hb. pose proof (reached_wf inputs s Hs) as Hwf.
  destruct (map s !! x) as [it|] eqn:Hx.
  - destruct (loop_body_hit s x it Hwf Hx) as (l' & Hb' & _).
    rewrite Hb' in Hb. injection Hb as <- <-. simpl. split; [done|].
    intros i j Hi. done.
  - destruct (loop_body_miss s x Hwf Hx) as (v & l1 & m1 & o & _ & _ & Ho & Hb').
    rewrite Hb' in Hb. injection Hb as <- <-. simpl.
    destruct o as [k|]; simpl; [|split; [done|intros i j Hi; done]].
    destruct Ho as [(d & Hd & Htake) _]. split.
    + intros i c Hc Hc1 Hcv. destruct (decide (k = i)) as [->|Hne].
      * rewrite Hd in Hc. injection Hc as ->. destruct Htake; congruence.
      * by rewrite list_lookup_insert_ne.
    + intros i j Hi Hj. destruct (decide (k = i)) as [<-|Hki].
      * destruct (decide (k = j)) as [<-|Hkj]; [done|].
        by rewrite list_lookup_insert_ne in Hj.
      * by rewrite list_lookup_insert_ne in Hi.
Qed.

Lemma frame_kept_unless_empty_or_victim_witness :
  ∃ s s' a,
    state_after [1; 2; 3] = Some s ∧ loop_body 4 s = Some (s', a)
    ∧ (∀ i c, ram s !! i = Some c → c ≠ -1 → a_victim a ≠ Some c →
              ram s' !! i = Some c)
    ∧ (∀ i j, ram s' !! i ≠ ram s !! i → ram s' !! j ≠ ram s !! j → i = j).
Proof.
  eexists _, _, _. split; [reflexivity|]. split; [by vm_compute|].
  apply (frame_kept_unless_empty_or_victim [1; 2; 3] 4); [reflexivity|by vm_compute].
Defined.

Lemma elem_of_insert_inv (r : list Z) (k : nat) (x c : Z) :
  c ∈ <[k := x]> r → c = x ∨ c ∈ r.
Proof.
  intros Hin. apply list_elem_of_lookup in Hin as [i Hi].
  destruct (decide (k = i)) as [->|Hne].
  - destruct (decide (i < length r)%nat) as [Hlt|Hge].
    + rewrite list_lookup_insert_eq in Hi by done. injection Hi as <-. by left.
    + rewrite list_insert_ge in Hi by lia. right.
      by apply list_elem_of_lookup_2 in Hi.
  - rewrite list_lookup_insert_ne in Hi by done. right.
    by apply list_elem_of_lookup_2 in Hi.
Qed.

(** X5: after any accesses, every frame holds -1 or an identifier that was
    accessed. *)
Theorem frames_hold_sentinel_or_accessed (inputs : list Z) :
  ∃ s, state_after inputs = Some s
       ∧ ∀ c, c ∈ ram s → c = -1 ∨ c ∈ inputs.
Proof.
  induction inputs as [|x inputs (s & Hs & IH)] using rev_ind.
  - exists init. split; [done|]. intros c Hc. left.
    simpl in Hc. repeat (apply elem_of_cons in Hc as [Hc|Hc]; [done|]).
    by apply elem_of_nil in Hc.
  - pose proof (reached_wf inputs s Hs) as Hwf.
    destruct (wf_step s x Hwf) as (s' & a & Hb & _).
    exists s'. split; [by apply (state_after_step _ _ s _ a)|].
    intros c Hc. rewrite elem_of_app, list_elem_of_singleton.
    assert (c = x ∨ c ∈ ram s) as [->|Hold]; [|tauto|apply IH in Hold; tauto].
    destruct (map s !! x) as [it|] eqn:Hx.
    + destruct (loop_body_hit s x it Hwf Hx) as (l' & Hb' & _).
      rewrite Hb' in Hb. injection Hb as <- <-. by right.
    + destruct (loop_body_miss s x Hwf Hx) as (v & l1 & m1 & o & _ & _ & _ & Hb').
      rewrite Hb' in Hb. injection Hb as <- <-. simpl in Hc.
      destruct o as [k|]; simpl in Hc; [by apply elem_of_insert_inv in Hc|by right].
Qed.

(** ** Counting *)

Lemma recency_length (inputs : list Z) :
  length (recency inputs) = length (remove_dups inputs).
Proof.
  apply Permutation_length, NoDup_Permutation.
  - apply recency_NoDup.
  - apply NoDup_remove_dups.
  - intros y. by rewrite recency_elem, elem_of_remove_dups.
Qed.

Lemma recency_length_snoc (inputs : list Z) (x : Z) :
  length (recency (inputs ++ [x]))
  = if decide (x ∈ inputs) then length (recency inputs)
    else S (length (recency inputs)).
Proof.
  rewrite recency_snoc. unfold move_to_front. simpl.
  destruct (decide (x ∈ inputs)) as [Hin|Hnot].
  - apply recency_elem in Hin.
    destruct (filter_ne_split _ x (recency_NoDup inputs) Hin)
      as (l1 & l2 & -> & -> & _).
    rewrite !length_app. simpl. lia.
  - rewrite filter_ne_notin; [done|]. by rewrite recency_elem.
Qed.

Lemma distinct_app_le (inputs more : list Z) :
  (length (remove_dups inputs) ≤ length (remove_dups (inputs ++ more)))%nat.
Proof.
  apply submseteq_length, NoDup_submseteq; [apply NoDup_remove_dups|].
  intros y. rewrite !elem_of_remove_dups, elem_of_app. tauto.
Qed.

(** X6: the number of resident identifiers is the number of distinct
    identifiers accessed so far, capped at three; so it never decreases as
    the run goes on. *)
Theorem resident_count_is_distinct_capped (inputs more : list Z) :
  ∃ s s', state_after inputs = Some s
          ∧ state_after (inputs ++ more) = Some s'
          ∧ length (check_usage s) = Nat.min 3 (length (remove_dups inputs))
          ∧ (length (check_usage s) ≤ length (check_usage s'))%nat.
Proof.
  assert (∀ l s, state_after l = Some s →
            length (check_usage s) = Nat.min 3 (length (remove_dups l))) as Hcount.
  { intros l s Hs. rewrite <- recency_length, <- length_take.
    rewrite <- (reached_values l s Hs). unfold values. by rewrite length_fmap. }
  destruct (state_after_wf inputs) as (s & Hs & _).
  destruct (state_after_wf (inputs ++ more)) as (s' & Hs' & _).
  exists s, s'. split; [done|]. split; [done|]. split; [by apply Hcount|].
  rewrite (Hcount _ _ Hs), (Hcount _ _ Hs').
  pose proof (distinct_app_le inputs more). lia.
Qed.

Lemma main_snoc (inputs : list Z) (x : Z) :
  main (inputs ++ [x])
  = '(s, tr) ← main inputs; '(s', a) ← loop_body x s; Some (s', tr ++ [a]).
Proof.
  unfold main. rewrite main_loop_app. simpl.
  destruct (main_loop inputs init) as [[s tr]|]; simpl; [|done].
  destruct (loop_body x s) as [[s' a]|]; done.
Qed.

(** A run with its state and its trace. *)
Lemma main_defined (inputs : list Z) :
  ∃ s tr, main inputs = Some (s, tr) ∧ state_after inputs = Some s
          ∧ trace inputs = Some tr.
Proof.
  destruct (state_after_wf inputs) as (s & Hs & _).
  unfold state_after, trace in *. destruct (main inputs) as [[s0 tr]|]; [|done].
  simpl in Hs. injection Hs as ->. by exists s, tr.
Qed.

Lemma trace_records (inputs : list Z) :
  ∃ s tr,
    state_after inputs = Some s
    ∧ trace inputs = Some tr
    ∧ a_id <$> tr = inputs
    ∧ Forall (λ a, length (a_ram a) = 3%nat) tr
    ∧ from_option a_ram (replicate 3 (-1)) (last tr) = ram s.
Proof.
  induction inputs as [|x inputs (s & tr & Hs & Htr & Hids & Hlen & Hlast)]
    using rev_ind.
  - exists init, []. repeat split; done.
  - pose proof (reached_wf inputs s Hs) as Hwf.
    destruct (wf_step s x Hwf) as (s' & a & Hb & Hwf').
    destruct (loop_body_record s s' x a Hb) as (Hid & Hram & _).
    exists s', (tr ++ [a]).
    assert (main inputs = Some (s, tr)) as Hmain.
    { destruct (main_defined inputs) as (s0 & tr0 & Hm & Hs0 & Htr0). congruence. }
    split; [by apply (state_after_step _ _ s _ a)|].
    split; [unfold trace; rewrite main_snoc, Hmain; simpl; by rewrite Hb|].
    split; [by rewrite fmap_app, Hids; simpl; rewrite Hid|].
    split.
    + apply Forall_app. split; [done|]. apply Forall_singleton.
      rewrite Hram. apply (wf_ram s' Hwf').
    + by rewrite last_snoc.
Qed.

(** X7: the program reports one access per input, in input order, each with
    three frames, and the frames of the last report are the frames of the
    final state. *)
Theorem trace_shape (inputs : list Z) :
  ∃ s tr,
    state_after inputs = Some s
    ∧ trace inputs = Some tr
    ∧ a_id <$> tr = inputs
    ∧ Forall (λ a, length (a_ram a) = 3%nat) tr
    ∧ from_option a_ram (replicate 3 (-1)) (last tr) = ram s.
Proof. apply trace_records. Qed.

Lemma misses_snoc (tr : list Access) (a : Access) :
  misses (tr ++ [a]) = (misses tr + if a_hit a then 0 else 1)%nat.
Proof.
  unfold misses. rewrite filter_app, length_app. f_equal.
  destruct (a_hit a) eqn:Hh.
  - rewrite filter_cons_False; [done|]. by rewrite Hh.
  - by rewrite filter_cons_True.
Qed.

(** X8: a run has at least as many MISSes as distinct identifiers and at
    most as many as accesses; when at most three distinct identifiers are
    accessed, the MISSes are exactly the first accesses. *)
Theorem misses_bounds (inputs : list Z) :
  ∃ tr, trace inputs = Some tr
        ∧ (length (remove_dups inputs) ≤ misses tr ≤ length inputs)%nat
        ∧ ((length (remove_dups inputs) ≤ 3)%nat →
           misses tr = length (remove_dups inputs)).
Proof.
  setoid_rewrite <- recency_length.
  induction inputs as [|x inputs (tr & Htr & Hb & Heq)] using rev_ind.
  - exists []. split; [done|]. split; [unfold misses, recency; simpl; lia|done].
  - destruct (main_defined inputs) as (s & tr0 & Hmain & Hs & Htr0).
    assert (tr0 = tr) as -> by congruence.
    pose proof (reached_wf inputs s Hs) as Hwf.
    destruct (wf_step s x Hwf) as (s' & a & Hstep & _).
    exists (tr ++ [a]).
    split; [unfold trace; rewrite main_snoc, Hmain; simpl; by rewrite Hstep|].
    rewrite misses_snoc, recency_length_snoc, length_app. simpl.
    destruct (loop_body_record s s' x a Hstep) as (_ & _ & Hhit).
    pose proof (reached_resident inputs s x Hs) as Hres.
    destruct (decide (x ∈ inputs)) as [Hin|Hnew].
    + split; [destruct (a_hit a); lia|]. intros H3.
      rewrite <- (Heq H3). destruct (a_hit a); [lia|]. exfalso.
      assert (is_Some (map s !! x)) as Hsome.
      { apply Hres. rewrite take_ge by lia. by apply recency_elem. }
      apply Hhit in Hsome. done.
    + assert (a_hit a = false) as ->.
      { destruct (a_hit a); [|done]. exfalso. apply Hnew, recency_elem.
        assert (x ∈ take 3 (recency inputs)) as Hin by by apply Hres, Hhit.
        apply list_elem_of_lookup in Hin as [i Hi].
        apply lookup_take_Some in Hi as [Hi _].
        by apply list_elem_of_lookup_2 in Hi. }
      split; [lia|]. intros H3. rewrite Heq by lia. lia.
Qed.

Lemma misses_bounds_witness :
  ∃ tr, trace [1; 2; 1; 3] = Some tr
        ∧ (length (remove_dups [1; 2; 1; 3]) ≤ misses tr ≤ length [1; 2; 1; 3])%nat
        ∧ ((length (remove_dups [1; 2; 1; 3]) ≤ 3)%nat →
           misses tr = length (remove_dups [1; 2; 1; 3])).
Proof. exact (misses_bounds [1; 2; 1; 3]). Defined.

(** ** Reading the accesses *)

Lemma cin_int_in_range (z : Z) (rest : list Z) (x : option Z) :
  in_int z →
  cin_int {| tokens := z :: rest; failbit := false |} x
  = (Some z, {| tokens := rest; failbit := false |}).
Proof.
  intros [Hlo Hhi]. unfold cin_int. simpl.
  rewrite decide_False by lia. by rewrite decide_False by lia.
Qed.

Lemma cin_int_out_of_range (z : Z) (rest : list Z) (x : option Z) :
  ¬ in_int z →
  cin_int {| tokens := z :: rest; failbit := false |} x
  = (Some (saturated z), {| tokens := rest; failbit := true |}).
Proof.
  intros Hout. unfold cin_int, saturated. simpl.
  destruct (decide (z < INT_MIN)); [done|].
  rewrite decide_True; [done|]. unfold in_int in Hout. lia.
Qed.

Lemma cin_int_failed (t : list Z) (x : option Z) :
  cin_int {| tokens := t; failbit := true |} x
  = (x, {| tokens := t; failbit := true |}).
Proof. done. Qed.


(** Once the stream has failed, every iteration pushes the value that [val]
    holds; with [val] uninitialised the first iteration is undefined. *)
Lemma read_loop_failed (count : nat) (v : Z) (t inputs : list Z) :
  read_loop count (Some v) {| tokens := t; failbit := true |} inputs
  = Some (inputs ++ replicate count v, {| tokens := t; failbit := true |}).
Proof.
  revert inputs. induction count as [|count IH]; intros inputs.
  - simpl. by rewrite app_nil_r.
  - change (read_loop (S count) (Some v) {| tokens := t; failbit := true |} inputs)
      with (read_loop count (Some v) {| tokens := t; failbit := true |}
              (inputs ++ [v])).
    rewrite IH. by rewrite <- app_assoc.
Qed.


Lemma read_loop_end (count : nat) (v : Z) (inputs : list Z) :
  ∃ b, read_loop count (Some v) {| tokens := []; failbit := false |} inputs
       = Some (inputs ++ replicate count v, {| tokens := []; failbit := b |}).
Proof.
  destruct count as [|count].
  - exists false. simpl. by rewrite app_nil_r.
  - exists true.
    change (read_loop (S count) (Some v) {| tokens := []; failbit := false |} inputs)
      with (read_loop count (Some v) {| tokens := []; failbit := true |}
              (inputs ++ [v])).
    rewrite read_loop_failed. by rewrite <- app_assoc.
Qed.

Lemma read_loop_step (count : nat) (val : option Z) (z : Z) (rest inputs : list Z) :
  in_int z →
  read_loop (S count) val {| tokens := z :: rest; failbit := false |} inputs
  = read_loop count (Some z) {| tokens := rest; failbit := false |}
      (inputs ++ [z]).
Proof.
  intros Hz.
  change (read_loop (S count) val {| tokens := z :: rest; failbit := false |} inputs)
    with (let '(val', cin') :=
            cin_int {| tokens := z :: rest; failbit := false |} val in
          v ← val'; read_loop count val' cin' (inputs ++ [v])).
  by rewrite (cin_int_in_range z rest val Hz).
Qed.

Lemma read_loop_enough (count : nat) (val : option Z) (stream inputs : list Z) :
  (count ≤ length stream)%nat → Forall in_int (take count stream) →
  read_loop count val {| tokens := stream; failbit := false |} inputs
  = Some (inputs ++ take count stream,
          {| tokens := drop count stream; failbit := false |}).
Proof.
  revert val stream inputs. induction count as [|count IH];
    intros val stream inputs Hlen Hall.
  - simpl. by rewrite take_0, drop_0, app_nil_r.
  - destruct stream as [|z stream]; simpl in Hlen; [lia|].
    simpl in Hall. apply Forall_cons in Hall as [Hz Hall].
    rewrite (read_loop_step count val z stream inputs Hz).
    rewrite IH by (done || lia). simpl. by rewrite <- app_assoc.
Qed.

Lemma last_cons_default (y z : Z) (l : list Z) :
  List.last (y :: l) z = List.last l y.
Proof.
  revert y z. induction l as [|x l IH]; intros y z; [done|].
  change (List.last (y :: x :: l) z) with (List.last (x :: l) z).
  by rewrite !IH.
Qed.

Lemma read_loop_short (count : nat) (val : option Z) (z : Z) (stream inputs : list Z) :
  Forall in_int (z :: stream) → (length (z :: stream) ≤ count)%nat →
  ∃ b, read_loop count val {| tokens := z :: stream; failbit := false |} inputs
       = Some (inputs ++ (z :: stream)
                 ++ replicate (count - length (z :: stream)) (List.last stream z),
               {| tokens := []; failbit := b |}).
Proof.
  revert count val z inputs. induction stream as [|y stream IH];
    intros count val z inputs Hall Hlen; simpl in Hlen;
    apply Forall_cons in Hall as [Hz Hall].
  - destruct count as [|count]; [lia|].
    rewrite (read_loop_step count val z [] inputs Hz).
    destruct (read_loop_end count z (inputs ++ [z])) as [b ->].
    exists b. rewrite <- app_assoc. simpl. by rewrite ?Nat.sub_0_r.
  - destruct count as [|count]; [lia|].
    rewrite (read_loop_step count val z (y :: stream) inputs Hz).
    destruct (IH count (Some z) y (inputs ++ [z]) Hall) as [b ->]; [simpl; lia|].
    exists b. rewrite <- app_assoc. by rewrite (last_cons_default y z).
Qed.

Lemma read_loop_saturated
    (count : nat) (val : option Z) (pre : list Z) (z : Z) (rest inputs : list Z) :
  Forall in_int pre → ¬ in_int z → (length pre < count)%nat →
  read_loop count val {| tokens := pre ++ z :: rest; failbit := false |} inputs
  = Some (inputs ++ pre ++ replicate (count - length pre) (saturated z),
          {| tokens := rest; failbit := true |}).
Proof.
  revert count val inputs. induction pre as [|y pre IH];
    intros count val inputs Hall Hz Hlen; simpl in Hlen.
  - destruct count as [|count]; [lia|]. simpl app.
    change (read_loop (S count) val {| tokens := z :: rest; failbit := false |} inputs)
      with (let '(val', cin') :=
              cin_int {| tokens := z :: rest; failbit := false |} val in
            v ← val'; read_loop count val' cin' (inputs ++ [v])).
    rewrite (cin_int_out_of_range z rest val Hz). simpl mbind.
    rewrite read_loop_failed, <- app_assoc. done.
  - apply Forall_cons in Hall as [Hy Hall].
    destruct count as [|count]; [lia|].
    change ((y :: pre) ++ z :: rest) with (y :: (pre ++ z :: rest)).
    rewrite (read_loop_step count val y _ inputs Hy).
    rewrite IH by (done || lia). by rewrite <- app_assoc.
Qed.


(** Reading a count in the range of [int]. *)
Lemma take_input_count (n : Z) (xs inputs : list Z) :
  in_int n →
  take_input (n :: xs) inputs
  = '(inputs', cin') ← read_loop (Z.to_nat n) None
                         {| tokens := xs; failbit := false |} inputs;
    Some (inputs', tokens cin').
Proof.
  intros Hn. unfold take_input. by rewrite (cin_int_in_range n xs None Hn).
Qed.

Lemma take_input_enough (n : Z) (xs inputs : list Z) :
  in_int n → (Z.to_nat n ≤ length xs)%nat →
  Forall in_int (take (Z.to_nat n) xs) →
  take_input (n :: xs) inputs
  = Some (inputs ++ take (Z.to_nat n) xs, drop (Z.to_nat n) xs).
Proof.
  intros Hn Hlen Hall. rewrite take_input_count by done.
  by rewrite read_loop_enough.
Qed.

Lemma take_input_short (n z : Z) (xs inputs : list Z) :
  in_int n → Forall in_int (z :: xs) → (length (z :: xs) ≤ Z.to_nat n)%nat →
  take_input (n :: z :: xs) inputs
  = Some (inputs ++ (z :: xs)
            ++ replicate (Z.to_nat n - length (z :: xs)) (List.last xs z), []).
Proof.
  intros Hn Hall Hlen. rewrite take_input_count by done.
  by destruct (read_loop_short (Z.to_nat n) None z xs inputs Hall Hlen) as [b ->].
Qed.

(** X9: when standard input holds a count [n] followed by at least [n]
    values, the count and the first [n] values being in the range of [int],
    [take_input] appends exactly these [n] values, in order, and leaves the
    others unread; for [n ≤ 0] it appends nothing. *)
Theorem take_input_reads_count (n : Z) (xs inputs : list Z) :
  in_int n → (Z.to_nat n ≤ length xs)%nat →
  Forall in_int (take (Z.to_nat n) xs) →
  take_input (n :: xs) inputs
  = Some (inputs ++ take (Z.to_nat n) xs, drop (Z.to_nat n) xs)
  ∧ (n ≤ 0 → take_input (n :: xs) inputs = Some (inputs, xs)).
Proof.
  intros Hn Hlen Hall. rewrite take_input_enough by done.
  split; [done|]. intros Hneg.
  replace (Z.to_nat n) with 0%nat by lia. by rewrite take_0, drop_0, app_nil_r.
Qed.

Lemma take_input_reads_count_witness :
  in_int 2 ∧ (Z.to_nat 2 ≤ length [7; 8; 9])%nat
  ∧ Forall in_int (take (Z.to_nat 2) [7; 8; 9])
  ∧ take_input (2 :: [7; 8; 9]) [] = Some ([] ++ take (Z.to_nat 2) [7; 8; 9],
                                           drop (Z.to_nat 2) [7; 8; 9])
  ∧ (2 ≤ 0 → take_input (2 :: [7; 8; 9]) [] = Some ([], [7; 8; 9])).
Proof.
  assert (in_int 2) as Hn by (unfold in_int, INT_MIN, INT_MAX; lia).
  assert (Z.to_nat 2 ≤ length [7; 8; 9])%nat as H by (simpl; lia).
  assert (Forall in_int (take (Z.to_nat 2) [7; 8; 9])) as Hall
    by (repeat constructor; unfold INT_MIN, INT_MAX; lia).
  split; [exact Hn|]. split; [exact H|]. split; [exact Hall|].
  exact (take_input_reads_count 2 [7; 8; 9] [] Hn H Hall).
Defined.

(** X10: when the count and all the values are in the range of [int] and
    the stream ends before the count is satisfied, but after at least one
    value, the extractions that fail leave [val] as it is, and the vector is
    completed with copies of the last value read. *)
Theorem take_input_repeats_last (n z : Z) (xs inputs : list Z) :
  in_int n → Forall in_int (z :: xs) → (length (z :: xs) ≤ Z.to_nat n)%nat →
  take_input (n :: z :: xs) inputs
  = Some (inputs ++ (z :: xs)
            ++ replicate (Z.to_nat n - length (z :: xs)) (List.last xs z), []).
Proof. apply take_input_short. Qed.

Lemma take_input_repeats_last_witness :
  in_int 5 ∧ Forall in_int (7 :: [8]) ∧ (length (7 :: [8]) ≤ Z.to_nat 5)%nat
  ∧ take_input (5 :: 7 :: [8]) []
    = Some ([] ++ (7 :: [8])
               ++ replicate (Z.to_nat 5 - length (7 :: [8])) (List.last [8] 7), []).
Proof.
  assert (in_int 5) as Hn by (unfold in_int, INT_MIN, INT_MAX; lia).
  assert (Forall in_int (7 :: [8])) as Hall
    by (repeat constructor; unfold INT_MIN, INT_MAX; lia).
  assert (length (7 :: [8]) ≤ Z.to_nat 5)%nat as H by (simpl; lia).
  split; [exact Hn|]. split; [exact Hall|]. split; [exact H|].
  exact (take_input_repeats_last 5 7 [8] [] Hn Hall H).
Defined.


(** X20: when an integer outside the range of [int] is met before the count
    is satisfied, it is consumed, the nearest bound of [int] is stored, every
    later extraction fails, and the vector is completed with copies of that
    bound; the integers after it stay unread. *)
Theorem take_input_saturates (n z : Z) (pre rest inputs : list Z) :
  in_int n → Forall in_int pre → ¬ in_int z → (length pre < Z.to_nat n)%nat →
  take_input (n :: pre ++ z :: rest) inputs
  = Some (inputs ++ pre
            ++ replicate (Z.to_nat n - length pre)
                 (if decide (z < INT_MIN) then INT_MIN else INT_MAX),
          rest).
Proof.
  intros Hn Hall Hz Hlen. rewrite take_input_count by done.
  by rewrite read_loop_saturated.
Qed.

Lemma take_input_saturates_witness :
  in_int 3 ∧ Forall in_int [] ∧ ¬ in_int 99999999999
  ∧ (length ([] : list Z) < Z.to_nat 3)%nat
  ∧ take_input (3 :: [] ++ 99999999999 :: [5]) []
    = Some ([] ++ []
               ++ replicate (Z.to_nat 3 - length ([] : list Z))
                    (if decide (99999999999 < INT_MIN) then INT_MIN else INT_MAX),
            [5]).
Proof.
  assert (in_int 3) as Hn by (unfold in_int, INT_MIN, INT_MAX; lia).
  assert (¬ in_int 99999999999) as Hz by (unfold in_int, INT_MIN, INT_MAX; lia).
  assert (length ([] : list Z) < Z.to_nat 3)%nat as H by (simpl; lia).
  split; [exact Hn|]. split; [constructor|]. split; [exact Hz|].
  split; [exact H|].
  exact (take_input_saturates 3 99999999999 [] [5] [] Hn (Forall_nil_2 _) Hz H).
Defined.

(** ** Accessing the most recent identifier again *)

Lemma front_after_access (s s' : State) (x : Z) (a : Access) :
  wf s → loop_body x s = Some (s', a) →
  ∃ h l, check_usage s' = Node h x :: l ∧ map s' !! x = Some (It h).
Proof.
  intros Hwf Hb. destruct (map s !! x) as [it|] eqn:Hx.
  - destruct (loop_body_hit s x it Hwf Hx) as (l' & Hb' & Hv & _ & Ht).
    rewrite Hb' in Hb. injection Hb as <- <-. simpl.
    destruct l' as [|[h y] l']; [done|]. simpl in Hv. injection Hv as -> Hv.
    exists h, l'. split; [done|]. rewrite Hx.
    destruct (proj1 (tr_map _ _ Ht x it) Hx) as (h' & -> & Hin).
    apply elem_of_cons in Hin as [Hin|Hin]; [by injection Hin as ->|].
    exfalso. pose proof (tr_values _ _ Ht) as Hnd. simpl in Hnd.
    apply NoDup_cons in Hnd as [Hnot _]. apply Hnot.
    by apply (elem_values _ (Node h' x)).
  - destruct (loop_body_miss s x Hwf Hx) as (v & l1 & m1 & o & _ & _ & _ & Hb').
    rewrite Hb' in Hb. injection Hb as <- <-. simpl.
    exists (fresh_handle l1), l1. split; [done|]. apply lookup_insert_eq.
Qed.

Lemma front_hit_fixpoint (s : State) (x : Z) (h : handle) (l : list node) :
  check_usage s = Node h x :: l → map s !! x = Some (It h) →
  loop_body x s
  = Some (s, {| a_id := x; a_hit := true; a_victim := None; a_ram := ram s |}).
Proof.
  intros Hl Hx. unfold loop_body. rewrite Hx, Hl. simpl.
  rewrite decide_True by done. simpl. destruct s as [r l0 m]. simpl in *.
  by subst l0.
Qed.

Lemma main_loop_repeat (s : State) (x : Z) (h : handle) (l : list node) (k : nat) :
  check_usage s = Node h x :: l → map s !! x = Some (It h) →
  main_loop (replicate k x) s
  = Some (s, replicate k {| a_id := x; a_hit := true; a_victim := None;
                            a_ram := ram s |}).
Proof.
  intros Hl Hx. induction k as [|k IH]; [done|]. simpl.
  rewrite (front_hit_fixpoint s x h l Hl Hx). simpl. by rewrite IH.
Qed.

(** X12: accessing again, any number of times, the identifier that was
    accessed last is reported as a HIT each time and leaves the whole state
    (frames, recency list and table) exactly as it is. *)
Theorem repeated_access_changes_nothing (inputs : list Z) (x : Z) (k : nat) :
  ∃ s, state_after (inputs ++ [x]) = Some s
       ∧ main_loop (replicate k x) s
         = Some (s, replicate k {| a_id := x; a_hit := true; a_victim := None;
                                   a_ram := ram s |}).
Proof.
  destruct (state_after_wf inputs) as (s0 & Hs0 & Hwf0).
  destruct (wf_step s0 x Hwf0) as (s & a & Hb & _).
  exists s. split; [by apply (state_after_step _ _ s0 _ a)|].
  destruct (front_after_access s0 s x a Hwf0 Hb) as (h & l & Hl & Hx).
  by apply (main_loop_repeat s x h l).
Qed.

(** ** The program on its standard input *)

(** X13: when standard input holds a count [n] followed by at least [n]
    values, the count and the first [n] values being in the range of [int],
    the program is defined and performs exactly the accesses of these [n]
    values; for [n ≤ 0] it reports no access and ends with all frames
    empty. *)
Theorem program_runs_first_n (n : Z) (xs : list Z) :
  in_int n → (Z.to_nat n ≤ length xs)%nat →
  Forall in_int (take (Z.to_nat n) xs) →
  program (n :: xs) = main (take (Z.to_nat n) xs)
  ∧ is_Some (program (n :: xs))
  ∧ (n ≤ 0 → program (n :: xs) = Some (init, [])).
Proof.
  intros Hn Hlen Hall. unfold program.
  rewrite (take_input_enough n xs [] Hn Hlen Hall). simpl.
  split; [done|]. split.
  - destruct (main_defined (take (Z.to_nat n) xs)) as (s & tr & -> & _). eauto.
  - intros Hneg. by replace (Z.to_nat n) with 0%nat by lia.
Qed.

Lemma program_runs_first_n_witness :
  in_int 2 ∧ (Z.to_nat 2 ≤ length [7; 8; 9])%nat
  ∧ Forall in_int (take (Z.to_nat 2) [7; 8; 9])
  ∧ program (2 :: [7; 8; 9]) = main (take (Z.to_nat 2) [7; 8; 9])
  ∧ is_Some (program (2 :: [7; 8; 9]))
  ∧ (2 ≤ 0 → program (2 :: [7; 8; 9]) = Some (init, [])).
Proof.
  assert (in_int 2) as Hn by (unfold in_int, INT_MIN, INT_MAX; lia).
  assert (Z.to_nat 2 ≤ length [7; 8; 9])%nat as H by (simpl; lia).
  assert (Forall in_int (take (Z.to_nat 2) [7; 8; 9])) as Hall
    by (repeat constructor; unfold INT_MIN, INT_MAX; lia).
  split; [exact Hn|]. split; [exact H|]. split; [exact Hall|].
  exact (program_runs_first_n 2 [7; 8; 9] Hn H Hall).
Defined.

(** X14: when the count and all the values are in the range of [int] and
    the stream ends before the count is satisfied, but after at least one
    value, the program performs the accesses of the values present and then
    reports one HIT of the last value, with the frames unchanged, for every
    value that is missing. *)
Theorem program_short_input_hits (n z : Z) (xs : list Z) :
  in_int n → Forall in_int (z :: xs) → (length (z :: xs) ≤ Z.to_nat n)%nat →
  ∃ s tr,
    main (z :: xs) = Some (s, tr)
    ∧ program (n :: z :: xs)
      = Some (s, tr ++ replicate (Z.to_nat n - length (z :: xs))
                         {| a_id := List.last xs z; a_hit := true;
                            a_victim := None; a_ram := ram s |}).
Proof.
  intros Hn Hall Hlen. unfold program.
  rewrite (take_input_short n z xs [] Hn Hall Hlen). simpl.
  assert (∃ pre, z :: xs = pre ++ [List.last xs z]) as [pre Hpre].
  { destruct (exists_last (l := z :: xs)) as (pre & y & Hy); [done|].
    exists pre. rewrite Hy. f_equal. f_equal.
    rewrite <- (last_cons_default z 0), Hy. by rewrite List.last_last. }
  destruct (main_defined (z :: xs)) as (s & tr & Hmain & Hs & _).
  exists s, tr. split; [done|].
  change (z :: xs ++ ?r) with ((z :: xs) ++ r).
  unfold main in *. rewrite main_loop_app, Hmain. simpl.
  rewrite Hpre in Hs. rewrite state_after_snoc in Hs.
  destruct (state_after pre) as [s0|] eqn:Hs0; [|done]. simpl in Hs.
  destruct (loop_body (List.last xs z) s0) as [[s1 a]|] eqn:Hb; [|done].
  simpl in Hs. injection Hs as ->.
  destruct (front_after_access s0 s _ a (reached_wf pre s0 Hs0) Hb)
    as (h & l & Hl & Hx).
  by rewrite (main_loop_repeat s _ h l _ Hl Hx).
Qed.

Lemma program_short_input_hits_witness :
  in_int 5 ∧ Forall in_int (7 :: [8]) ∧ (length (7 :: [8]) ≤ Z.to_nat 5)%nat
  ∧ ∃ s tr,
      main (7 :: [8]) = Some (s, tr)
      ∧ program (5 :: 7 :: [8])
        = Some (s, tr ++ replicate (Z.to_nat 5 - length (7 :: [8]))
                           {| a_id := List.last [8] 7; a_hit := true;
                              a_victim := None; a_ram := ram s |}).
Proof.
  assert (in_int 5) as Hn by (unfold in_int, INT_MIN, INT_MAX; lia).
  assert (Forall in_int (7 :: [8])) as Hall
    by (repeat constructor; unfold INT_MIN, INT_MAX; lia).
  assert (length (7 :: [8]) ≤ Z.to_nat 5)%nat as H by (simpl; lia).
  split; [exact Hn|]. split; [exact Hall|]. split; [exact H|].
  exact (program_short_input_hits 5 7 [8] Hn Hall H).
Defined.

(** ** Printing *)

Lemma occurs_app (c : ascii) (a b : string) :
  occurs c (a +:+ b) ↔ occurs c a ∨ occurs c b.
Proof. induction a as [|d a IH]; simpl; [tauto|]. rewrite IH. tauto. Qed.

(** A string is cut in one way only at the first occurrence of a
    character. *)
Lemma cut_unique (c : ascii) (a b r r' : string) :
  ¬ occurs c a → ¬ occurs c b →
  a +:+ String c r = b +:+ String c r' → a = b ∧ r = r'.
Proof.
  revert b. induction a as [|d a IH]; intros [|e b]; simpl; intros Ha Hb Heq.
  - by injection Heq as ->.
  - injection Heq as -> _. tauto.
  - injection Heq as -> _. tauto.
  - injection Heq as -> Heq. destruct (IH b) as [-> ->]; tauto.
Qed.

Lemma pretty_N_go_chars (c : ascii) (x : N) (s : string) :
  occurs c (pretty_N_go x s) → occurs c "0123456789" ∨ occurs c s.
Proof.
  revert s. induction (N.lt_wf_0 x) as [x _ IH]; intros s.
  assert (x = 0 ∨ 0 < x)%N as [->|Hpos] by lia.
  - rewrite pretty_N_go_0. tauto.
  - rewrite pretty_N_go_step by done. intros Hc.
    apply IH in Hc; [|by apply N.div_lt].
    destruct Hc as [Hc|[->|Hc]]; [by left| |by right].
    left. unfold pretty_N_char. repeat case_match; simpl; tauto.
Qed.

(** A printed integer consists of digits and the minus sign. *)
Lemma pretty_Z_chars (c : ascii) (z : Z) :
  occurs c (pretty z) → occurs c "-0123456789".
Proof.
  assert (∀ p : positive, occurs c (pretty p) → occurs c "0123456789") as Hpos.
  { intros p. unfold pretty, pretty_positive, pretty, pretty_N.
    case_decide; [done|]. intros Hc.
    apply pretty_N_go_chars in Hc as [Hc|Hc]; [done|by destruct Hc]. }
  destruct z as [|p|p]; unfold pretty, pretty_Z.
  - simpl. tauto.
  - intros Hc. right. exact (Hpos p Hc).
  - intros [->|Hc]; [by left|]. right. exact (Hpos p Hc).
Qed.

Lemma pretty_Z_free (c : ascii) (z : Z) :
  ¬ occurs c "-0123456789" → ¬ occurs c (pretty z).
Proof. intros Hc Hz. by apply Hc, (pretty_Z_chars c z). Qed.

Lemma print_frames_3 (r : list Z) (t : string) :
  print_frames 3 0 r = Some t →
  ∃ r0 r1 r2, take 3 r = [r0; r1; r2]
              ∧ t = pretty r0 +:+ " " +:+ pretty r1 +:+ " " +:+ pretty r2 +:+ " ".
Proof.
  destruct r as [|r0 [|r1 [|r2 r]]]; try done.
  simpl. intros [= <-]. by exists r0, r1, r2.
Qed.

Lemma not_numeral_space : ¬ occurs " " "-0123456789".
Proof. simpl. intros H. repeat (destruct H as [H|H]; [discriminate|]). done. Qed.

Lemma not_numeral_colon : ¬ occurs ":" "-0123456789".
Proof. simpl. intros H. repeat (destruct H as [H|H]; [discriminate|]). done. Qed.

Lemma not_numeral_newline : ¬ occurs "010" "-0123456789".
Proof. simpl. intros H. repeat (destruct H as [H|H]; [discriminate|]). done. Qed.

Lemma string_app_assoc (a b c : string) : (a +:+ b) +:+ c = a +:+ (b +:+ c).
Proof.
  induction a as [|d a IH]; [done|].
  change (String d ((a +:+ b) +:+ c) = String d (a +:+ (b +:+ c))).
  by rewrite IH.
Qed.

Lemma print_access_agree (a b : Access) (t : string) :
  print_access a = Some t → print_access b = Some t →
  a_id a = a_id b ∧ a_hit a = a_hit b ∧ take 3 (a_ram a) = take 3 (a_ram b).
Proof.
  unfold print_access. intros Ha Hb.
  destruct (print_frames 3 0 (a_ram a)) as [fa|] eqn:Hfa; [|done].
  destruct (print_frames 3 0 (a_ram b)) as [fb|] eqn:Hfb; [|done].
  simpl in Ha, Hb. injection Ha as <-. injection Hb as Heq.
  apply print_frames_3 in Hfa as (a0 & a1 & a2 & -> & ->).
  apply print_frames_3 in Hfb as (b0 & b1 & b2 & -> & ->).
  cbn [String.append] in Heq.
  apply (cut_unique ":") in Heq as [Hid Heq];
    [|apply pretty_Z_free, not_numeral_colon..].
  apply (inj pretty) in Hid. split; [done|].
  injection Heq as Heq.
  rewrite !string_app_assoc in Heq. cbn [String.append] in Heq.
  assert (a_hit a = a_hit b
          ∧ pretty b0 +:+ String " " (pretty b1 +:+ String " " (pretty b2
              +:+ String " " (String "]" endl)))
            = pretty a0 +:+ String " " (pretty a1 +:+ String " " (pretty a2
              +:+ String " " (String "]" endl))))
    as [Hhit Hfr].
  { destruct (a_hit a), (a_hit b); cbn [String.append] in Heq;
      try discriminate; injection Heq as Heq; by split. }
  split; [done|]. clear Heq.
  apply (cut_unique " ") in Hfr as [H0 Hfr];
    [|apply pretty_Z_free, not_numeral_space..].
  apply (cut_unique " ") in Hfr as [H1 Hfr];
    [|apply pretty_Z_free, not_numeral_space..].
  apply (cut_unique " ") in Hfr as [H2 _];
    [|apply pretty_Z_free, not_numeral_space..].
  apply (inj pretty) in H0, H1, H2. by subst.
Qed.

(** X15: the line written for an access shows its identifier, whether it is
    a HIT, and the three frames: two accesses that print the same line agree
    on all of these. *)
Theorem print_access_lossless (a b : Access) (t : string) :
  print_access a = Some t → print_access b = Some t →
  a_id a = a_id b ∧ a_hit a = a_hit b ∧ take 3 (a_ram a) = take 3 (a_ram b).
Proof. apply print_access_agree. Qed.

Lemma print_access_lossless_witness :
  ∃ t,
    print_access {| a_id := 4; a_hit := false; a_victim := Some 2;
                    a_ram := [1; 4; 3] |} = Some t
    ∧ print_access {| a_id := 4; a_hit := false; a_victim := None;
                      a_ram := [1; 4; 3] |} = Some t
    ∧ (4 = 4 ∧ false = false ∧ take 3 [1; 4; 3] = take 3 [1; 4; 3]).
Proof.
  eexists. split; [vm_compute; reflexivity|]. split; [vm_compute; reflexivity|].
  eapply (print_access_lossless
            {| a_id := 4; a_hit := false; a_victim := Some 2; a_ram := [1; 4; 3] |}
            {| a_id := 4; a_hit := false; a_victim := None; a_ram := [1; 4; 3] |});
    vm_compute; reflexivity.
Defined.

(** A printed line is free of line breaks up to its last character. *)
Lemma print_access_line (a : Access) (t : string) :
  print_access a = Some t →
  ∃ body, t = body +:+ endl ∧ ¬ occurs "010" body ∧ body ≠ "".
Proof.
  unfold print_access. intros Ha.
  destruct (print_frames 3 0 (a_ram a)) as [fa|] eqn:Hfa; [|done].
  simpl in Ha. injection Ha as <-.
  apply print_frames_3 in Hfa as (a0 & a1 & a2 & _ & ->).
  exists ("Access " +:+ pretty (a_id a) +:+ ": "
          +:+ (if a_hit a then "HIT -> [" else "MISS -> [")
          +:+ (pretty a0 +:+ " " +:+ pretty a1 +:+ " " +:+ pretty a2 +:+ " ")
          +:+ "]").
  split; [by rewrite !string_app_assoc|]. split; [|done].
  pose proof (pretty_Z_free "010" (a_id a) not_numeral_newline).
  pose proof (pretty_Z_free "010" a0 not_numeral_newline).
  pose proof (pretty_Z_free "010" a1 not_numeral_newline).
  pose proof (pretty_Z_free "010" a2 not_numeral_newline).
  rewrite !occurs_app.
  assert (¬ occurs "010" (if a_hit a then "HIT -> [" else "MISS -> [")).
  { destruct (a_hit a); simpl; intros Hc;
      repeat (destruct Hc as [Hc|Hc]; [discriminate|]); done. }
  intros Hc. repeat (destruct Hc as [Hc|Hc]); try tauto; try discriminate.
Qed.

Lemma print_trace_ids (tr1 tr2 : list Access) (out : string) :
  print_trace tr1 = Some out → print_trace tr2 = Some out →
  a_id <$> tr1 = a_id <$> tr2.
Proof.
  revert tr2 out. induction tr1 as [|a tr1 IH]; intros [|b tr2] out; simpl.
  - done.
  - intros [= <-] Hb. exfalso.
    destruct (print_access b) as [lb|] eqn:Hlb; [|done]. simpl in Hb.
    destruct (print_trace tr2) as [rb|]; [|done]. simpl in Hb.
    apply print_access_line in Hlb as (body & -> & _ & Hne).
    destruct body; [done|]. discriminate.
  - intros Ha [= <-]. exfalso.
    destruct (print_access a) as [la|] eqn:Hla; [|done]. simpl in Ha.
    destruct (print_trace tr1) as [ra|]; [|done]. simpl in Ha.
    apply print_access_line in Hla as (body & -> & _ & Hne).
    destruct body; [done|]. discriminate.
  - intros Ha Hb.
    destruct (print_access a) as [la|] eqn:Hla; [|done]. simpl in Ha.
    destruct (print_trace tr1) as [ra|] eqn:Hra; [|done]. simpl in Ha.
    destruct (print_access b) as [lb|] eqn:Hlb; [|done]. simpl in Hb.
    destruct (print_trace tr2) as [rb|] eqn:Hrb; [|done]. simpl in Hb.
    injection Ha as <-. injection Hb as Heq.
    destruct (print_access_line a la Hla) as (ba & Hba & Hfa & _).
    destruct (print_access_line b lb Hlb) as (bb & Hbb & Hfb & _).
    rewrite Hba, Hbb, !string_app_assoc in Heq. unfold endl in Heq.
    cbn [String.append] in Heq.
    apply (cut_unique "010") in Heq as [Hbody Hrest]; [|done..].
    subst bb rb. rewrite <- Hba in Hbb. subst lb.
    destruct (print_access_agree a b la Hla Hlb) as (-> & _).
    f_equal. by apply (IH tr2 ra).
Qed.

Lemma main_ids (inputs : list Z) (s : State) (tr : list Access) :
  main inputs = Some (s, tr) →
  a_id <$> tr = inputs ∧ is_Some (print_trace tr).
Proof.
  intros Hmain.
  destruct (trace_records inputs) as (s0 & tr0 & _ & Htr & Hids & Hlen & _).
  unfold trace in Htr. rewrite Hmain in Htr. simpl in Htr. injection Htr as <-.
  split; [done|]. clear -Hlen. induction Hlen as [|a tr Ha _ IH]; [by eexists|].
  simpl. destruct IH as [rest ->].
  assert (is_Some (print_access a)) as [line ->]; [|by eexists].
  unfold print_access. destruct (a_ram a) as [|r0 [|r1 [|r2 [|]]]]; done.
Qed.

(** X16: what the program prints determines the accesses it performed: two
    standard inputs for which it prints the same text made it read the same
    vector of identifiers, and so report the same accesses; and the program
    prints a text whenever reading its input is free of undefined
    behaviour. *)
Theorem stdout_determines_accesses (st1 st2 : list Z) (out : string) :
  stdout st1 = Some out → stdout st2 = Some out →
  (∃ inputs r1 r2, take_input st1 [] = Some (inputs, r1)
                   ∧ take_input st2 [] = Some (inputs, r2))
  ∧ (snd <$> program st1) = (snd <$> program st2)
  ∧ ∀ st, is_Some (take_input st []) → is_Some (stdout st).
Proof.
  unfold stdout, program. intros H1 H2.
  assert (∀ st, is_Some (take_input st []) →
            is_Some ('(_, tr) ← ('(inputs, _) ← take_input st []; main inputs);
                     lines ← print_trace tr;
                     Some ("Enter the number of process: "
                           +:+ "Enter the Process" +:+ lines))) as Hdef.
  { intros st [[inputs r] ->]. simpl.
    destruct (main_defined inputs) as (s & tr & Hm & _). rewrite Hm. simpl.
    destruct (main_ids inputs s tr Hm) as [_ [lines ->]]. by eexists. }
  split; [|split; [|exact Hdef]].
  all: destruct (take_input st1 []) as [[i1 r1]|]; [|done].
  all: destruct (take_input st2 []) as [[i2 r2]|]; [|done].
  all: simpl in *.
  all: destruct (main i1) as [[s1 tr1]|] eqn:Hm1; [|done].
  all: destruct (main i2) as [[s2 tr2]|] eqn:Hm2; [|done].
  all: simpl in *.
  all: destruct (print_trace tr1) as [l1|] eqn:Hl1; [|done].
  all: destruct (print_trace tr2) as [l2|] eqn:Hl2; [|done].
  all: simpl in *.
  all: injection H1 as <-; injection H2 as H2.
  all: apply (inj (String.app _)) in H2; subst l2.
  all: pose proof (print_trace_ids tr1 tr2 l1 Hl1 Hl2) as Hids.
  all: rewrite (proj1 (main_ids i1 s1 tr1 Hm1)) in Hids.
  all: rewrite (proj1 (main_ids i2 s2 tr2 Hm2)) in Hids; subst i2.
  - by exists i1, r1, r2.
  - congruence.
Qed.

Lemma stdout_determines_accesses_witness :
  ∃ out, stdout [1; 5; 9] = Some out ∧ stdout [1; 5] = Some out
    ∧ (∃ inputs r1 r2, take_input [1; 5; 9] [] = Some (inputs, r1)
                       ∧ take_input [1; 5] [] = Some (inputs, r2))
    ∧ (snd <$> program [1; 5; 9]) = (snd <$> program [1; 5])
    ∧ ∀ st, is_Some (take_input st []) → is_Some (stdout st).
Proof.
  eexists. split; [vm_compute; reflexivity|]. split; [vm_compute; reflexivity|].
  eapply (stdout_determines_accesses [1; 5; 9] [1; 5]); vm_compute; reflexivity.
Defined.

(** ** The window of the last three accesses *)

Lemma elem_take_filter (P : Z → Prop) `{∀ y, Decision (P y)}
    (x : Z) (j : nat) (l : list Z) :
  x ∈ take j l → P x → x ∈ take j (filter P l).
Proof.
  revert j. induction l as [|y l IH]; intros j Hin HP.
  - rewrite take_nil in Hin. by apply elem_of_nil in Hin.
  - destruct j as [|j]; [by apply elem_of_nil in Hin|].
    simpl in Hin. apply elem_of_cons in Hin as [->|Hin].
    + rewrite filter_cons_True by done. apply list_elem_of_here.
    + destruct (decide (P y)).
      * rewrite filter_cons_True by done. simpl.
        apply list_elem_of_further. by apply IH.
      * rewrite filter_cons_False by done.
        specialize (IH j Hin HP).
        apply list_elem_of_lookup in IH as [i Hi].
        apply lookup_take_Some in Hi as [Hi Hlt].
        apply (list_elem_of_lookup_2 _ i). apply lookup_take_Some. split; [done|lia].
Qed.

Lemma recent_window (l w : list Z) (x : Z) (k : nat) :
  (length w ≤ k)%nat → x ∈ w → x ∈ take k (recency (l ++ w)).
Proof.
  revert k. induction w as [|y w IH] using rev_ind; intros k Hlen Hin.
  - by apply elem_of_nil in Hin.
  - rewrite length_app in Hlen. simpl in Hlen.
    destruct k as [|k]; [lia|].
    rewrite app_assoc, recency_snoc. unfold move_to_front. simpl.
    destruct (decide (x = y)) as [->|Hne]; [apply list_elem_of_here|].
    apply list_elem_of_further.
    apply elem_of_app in Hin as [Hin|Hin];
      [|by apply list_elem_of_singleton in Hin].
    apply (elem_take_filter (λ z, z ≠ y)); [|done]. apply IH; [lia|done].
Qed.

(** X17: an identifier that is among the last three accesses is a HIT. *)
Theorem hit_within_last_three (pre w : list Z) (x : Z) :
  (length w ≤ 3)%nat → x ∈ w →
  ∃ s s' a, state_after (pre ++ w) = Some s
            ∧ loop_body x s = Some (s', a)
            ∧ a_hit a = true.
Proof.
  intros Hlen Hin. destruct (state_after_wf (pre ++ w)) as (s & Hs & Hwf).
  destruct (wf_step s x Hwf) as (s' & a & Hb & _).
  exists s, s', a. split; [done|]. split; [done|].
  apply (loop_body_record s s' x a Hb).
  apply (reached_resident (pre ++ w) s x Hs). by apply recent_window.
Qed.

Lemma hit_within_last_three_witness :
  (length [5; 6; 7] ≤ 3)%nat ∧ 5 ∈ [5; 6; 7]
  ∧ ∃ s s' a, state_after ([1; 2; 3; 4] ++ [5; 6; 7]) = Some s
              ∧ loop_body 5 s = Some (s', a)
              ∧ a_hit a = true.
Proof.
  assert (length [5; 6; 7] ≤ 3)%nat as H by (simpl; lia).
  assert (5 ∈ [5; 6; 7]) as H' by apply list_elem_of_here.
  split; [exact H|]. split; [exact H'|].
  exact (hit_within_last_three [1; 2; 3; 4] [5; 6; 7] 5 H H').
Defined.

Lemma recency_window_3 (pre : list Z) (p3 p2 p1 : Z) :
  p1 ≠ p2 → p1 ≠ p3 → p2 ≠ p3 →
  take 3 (recency (pre ++ [p3; p2; p1])) = [p1; p2; p3].
Proof.
  intros H12 H13 H23.
  change (pre ++ [p3; p2; p1]) with (pre ++ [p3] ++ [p2] ++ [p1]).
  rewrite !app_assoc, !recency_snoc. unfold move_to_front.
  rewrite (filter_cons_True _ p3) by done.
  rewrite (filter_cons_True _ p2) by done.
  rewrite (filter_cons_True _ p3) by done. done.
Qed.

(** X18: after three accesses of pairwise distinct identifiers, the access
    of an identifier other than these three is a MISS, and it evicts the
    identifier accessed three accesses before. *)
Theorem miss_outside_last_three (pre : list Z) (p3 p2 p1 x : Z) :
  p1 ≠ p2 → p1 ≠ p3 → p2 ≠ p3 → x ∉ [p3; p2; p1] →
  ∃ s s' a, state_after (pre ++ [p3; p2; p1]) = Some s
            ∧ loop_body x s = Some (s', a)
            ∧ a_hit a = false
            ∧ a_victim a = Some p3
            ∧ values (check_usage s') = [x; p1; p2].
Proof.
  intros H12 H13 H23 Hx.
  destruct (state_after_wf (pre ++ [p3; p2; p1])) as (s & Hs & Hwf).
  pose proof (reached_values _ s Hs) as Hv.
  rewrite recency_window_3 in Hv by done.
  assert (map s !! x = None) as Hnone.
  { apply (tracks_absent _ _ x (wf_tracks s Hwf)). rewrite Hv.
    intros Hin. apply Hx.
    repeat (apply elem_of_cons in Hin as [->|Hin];
            [rewrite !elem_of_cons; tauto|]).
    by apply elem_of_nil in Hin. }
  destruct (loop_body_miss s x Hwf Hnone) as (v & l1 & m1 & o & He & _ & _ & Hb).
  eexists s, _, _. split; [done|]. split; [exact Hb|]. simpl.
  split; [done|].
  destruct (evict_if_full_cases _ _ (wf_tracks s Hwf))
    as [(H3 & n & l' & Hl & He' & _)|[H3 He']];
    rewrite He' in He; injection He as <- <- <-.
  - rewrite Hl, values_app in Hv. simpl in Hv.
    assert (values l' ++ [node_val n] = [p1; p2] ++ [p3]) as Hsplit by done.
    apply app_inj_tail in Hsplit as [-> ->]. done.
  - exfalso. apply H3. rewrite <- (length_fmap node_val).
    change (node_val <$> check_usage s) with (values (check_usage s)).
    by rewrite Hv.
Qed.

Lemma miss_outside_last_three_witness :
  3 ≠ 2 ∧ 3 ≠ 1 ∧ 2 ≠ 1 ∧ (4 ∉ [1; 2; 3])
  ∧ ∃ s s' a, state_after ([9] ++ [1; 2; 3]) = Some s
              ∧ loop_body 4 s = Some (s', a)
              ∧ a_hit a = false
              ∧ a_victim a = Some 1
              ∧ values (check_usage s') = [4; 3; 2].
Proof.
  assert (4 ∉ [1; 2; 3]) as H.
  { intros H. repeat (apply elem_of_cons in H as [H|H]; [done|]).
    by apply elem_of_nil in H. }
  split; [done|]. split; [done|]. split; [done|]. split; [exact H|].
  apply (miss_outside_last_three [9] 1 2 3 4); [done..|exact H].
Defined.

(** ** The scan on any three frames *)

(** X19: on any vector of three frames the scan of lines 44-55 stays within
    the vector; it writes the new identifier into the first frame, in index
    order, that holds -1 or the victim, and into that frame only; when no
    frame does, it leaves through the end of the loop and the vector is as
    before. *)
Theorem scan_writes_first_match (r : list Z) (x v : Z) :
  length r = 3%nat →
  is_Some (place r x v)
  ∧ (∀ i, first_slot r (takes v) i → place r x v = Some (<[i := x]> r, Some i))
  ∧ (Forall (λ c, c ≠ -1 ∧ c ≠ v) r → place r x v = Some (r, None)).
Proof.
  intros Hlen. destruct (place_spec r x v Hlen) as (o & Hp & Ho).
  split; [rewrite Hp; eauto|]. split.
  - intros i Hi. by apply place_first.
  - intros Hall. rewrite Hp. destruct o as [i|]; [exfalso|done].
    destruct Ho as [(c & Hc & Htake) _].
    rewrite Forall_lookup in Hall. destruct (Hall i c Hc) as [H1 H2].
    destruct Htake; done.
Qed.

Lemma scan_writes_first_match_witness :
  length [4; 2; 5] = 3%nat
  ∧ is_Some (place [4; 2; 5] 6 (-1))
  ∧ (∀ i, first_slot [4; 2; 5] (takes (-1)) i →
          place [4; 2; 5] 6 (-1) = Some (<[i := 6]> [4; 2; 5], Some i))
  ∧ (Forall (λ c, c ≠ -1 ∧ c ≠ -1) [4; 2; 5] →
     place [4; 2; 5] 6 (-1) = Some ([4; 2; 5], None)).
Proof.
  split; [reflexivity|]. apply (scan_writes_first_match [4; 2; 5] 6 (-1)).
  reflexivity.
Defined.
